(** * ee881: a rate-1/4 convolutional code over an AWGN channel

    Shallow embedding of [main.py] (text/bit conversion, the convolutional
    encoder, the channel and the decoder's bit-to-text conversion) and of
    the Viterbi decoder it imports from [graph], followed by the
    properties of the transmission chain.

    Conventions of the embedding.
    - A Python [str] holding a message is a list of Unicode code points
      ([list N]); the digit strings the program builds on the way
      (binary and hexadecimal numerals) are [list ascii].
    - A Python [int] is a [Z] (or an [N] where the program only ever
      produces naturals); a [bytes] object is a [list N] of octets.
    - The codeword [encode] returns holds only the values +1 and -1; it
      and the samples the decoder reads are [list Q], the real numbers
      of the specification's decoder.
    - The channel computes in binary64: its arrays are lists of Rocq's
      primitive floats, with their IEEE addition, square root and
      comparison, NaN and infinities included.
    - A raised exception is the [Raise] branch of [result]. *)

From Stdlib Require Import ZArith NArith QArith Ascii String Bool Lia Lqa.
From Stdlib Require PrimFloat.
From Stdlib Require Import List.
Import ListNotations.

Local Close Scope Q_scope.
Local Open Scope list_scope.

(* ================================================================== *)
(** * Exceptions *)
(* ================================================================== *)

Inductive exn : Type :=
| ValueError
| IndexError
| LengthContractError.

Inductive result (A : Type) : Type :=
| Ok (a : A)
| Raise (e : exn).

Arguments Ok {A} a.
Arguments Raise {A} e.

Definition bind {A B : Type} (r : result A) (k : A -> result B) : result B :=
  match r with
  | Ok a => k a
  | Raise e => Raise e
  end.

Notation "x <- c ;; k" := (bind c (fun x => k))
  (at level 61, c at next level, right associativity).

(** A [for] loop whose body may raise. *)
Fixpoint for_each {S A : Type} (body : S -> A -> result S) (xs : list A) (s : S)
  : result S :=
  match xs with
  | [] => Ok s
  | x :: rest => s' <- body s x ;; for_each body rest s'
  end.

(* ================================================================== *)
(** * The Python built-ins the program calls *)
(* ================================================================== *)

Module Py.

(** Digit strings are written as Rocq string literals. *)
Definition lit (s : string) : list ascii := list_ascii_of_string s.

(** The numeral character of a digit value, lower case as [hex] and
    [bytes.hex] print it. *)
Definition digit_char (d : N) : ascii :=
  nth (N.to_nat d) (lit "0123456789abcdef") "?"%char.

(** The value of a numeral character, as [int(s, base)] reads it. *)
Definition digit_val (c : ascii) : option N :=
  let n := N_of_ascii c in
  if ((48 <=? n) && (n <=? 57))%N then Some (n - 48)%N
  else if ((97 <=? n) && (n <=? 102))%N then Some (n - 87)%N
  else if ((65 <=? n) && (n <=? 70))%N then Some (n - 55)%N
  else None.

Fixpoint parse_digits (base acc : N) (s : list ascii) : result N :=
  match s with
  | [] => Ok acc
  | c :: rest =>
      match digit_val c with
      | Some d =>
          if (d <? base)%N then parse_digits base (base * acc + d)%N rest
          else Raise ValueError
      | None => Raise ValueError
      end
  end.

(** [int(s, base)] on a string of numeral characters: the empty string
    and a character that is no digit of the base raise [ValueError].
    (Signs, underscores, blanks and base prefixes, which [int] also
    accepts, never occur in the strings the program passes.) *)
Definition int (base : N) (s : list ascii) : result N :=
  match s with
  | [] => Raise ValueError
  | _ => parse_digits base 0 s
  end.

(** The digits of [n] in base [b], most significant first, none for 0.
    The recursion is bounded by the bit size of [n]. *)
Fixpoint digits_aux (fuel : nat) (b n : N) : list N :=
  match fuel with
  | O => []
  | S fuel' =>
      if (n =? 0)%N then []
      else digits_aux fuel' b (n / b) ++ [(n mod b)%N]
  end.

Definition digits (b n : N) : list N :=
  digits_aux (N.to_nat (N.size n)) b n.

Definition numeral (b n : N) : list ascii :=
  if (n =? 0)%N then lit "0" else map digit_char (digits b n).

(** [bin(n)] and [hex(n)] for [n >= 0]. *)
Definition bin (n : N) : list ascii := lit "0b" ++ numeral 2 n.
Definition hex (n : N) : list ascii := lit "0x" ++ numeral 16 n.

(** [s.lstrip(chars)]: drops the longest prefix made of characters of
    [chars]. *)
Fixpoint lstrip (chars s : list ascii) : list ascii :=
  match s with
  | [] => []
  | c :: rest =>
      if existsb (Ascii.eqb c) chars then lstrip chars rest else s
  end.

(** [bytes.hex()]: two lower-case hexadecimal digits per octet. *)
Definition bytes_hex (bs : list N) : list ascii :=
  flat_map (fun b => [digit_char (b / 16); digit_char (b mod 16)]) bs.

(** [bytearray.fromhex(s)] on a string of hexadecimal digits: an odd
    number of digits or a character that is no digit raises
    [ValueError]. *)
Fixpoint bytearray_fromhex (s : list ascii) : result (list N) :=
  match s with
  | [] => Ok []
  | c1 :: s1 =>
      match s1 with
      | [] => Raise ValueError
      | c2 :: rest =>
          match digit_val c1, digit_val c2 with
          | Some d1, Some d2 =>
              if ((d1 <? 16) && (d2 <? 16))%N then
                bs <- bytearray_fromhex rest ;; Ok ((16 * d1 + d2)%N :: bs)
              else Raise ValueError
          | _, _ => Raise ValueError
          end
      end
  end.

(** [str.encode('ascii', errors='replace')]: a code point outside ASCII
    becomes the octet of ['?']. *)
Definition encode_ascii_replace (s : list N) : list N :=
  map (fun c => if (c <? 128)%N then c else 63%N) s.

(** [bytes.decode('ascii', errors='replace')]: an octet outside ASCII
    becomes U+FFFD. *)
Definition decode_ascii_replace (bs : list N) : list N :=
  map (fun b => if (b <? 128)%N then b else 65533%N) bs.

(** List indexing [xs[i]] and [xs.pop(0)]. *)
Definition index {A : Type} (xs : list A) (i : nat) : result A :=
  match nth_error xs i with
  | Some x => Ok x
  | None => Raise IndexError
  end.

Definition pop0 {A : Type} (xs : list A) : result (list A) :=
  match xs with
  | [] => Raise IndexError
  | _ :: rest => Ok rest
  end.

(** Truth value of an optional float argument: [None] is false, and so
    is a float equal to 0.0 (which -0.0 is and NaN is not). *)
Definition truthy (x : option PrimFloat.float) : bool :=
  match x with
  | None => false
  | Some v => negb (PrimFloat.eqb v PrimFloat.zero)
  end.

(** [x or d]. *)
Definition or_else (x : option PrimFloat.float) (d : PrimFloat.float)
  : PrimFloat.float :=
  match x with
  | Some v => if truthy x then v else d
  | None => d
  end.

End Py.

(* ================================================================== *)
(** * main.py *)
(* ================================================================== *)

(** The integers 0 and 1, which NumPy takes as the floats 0.0 and
    1.0. *)
Definition MEAN : PrimFloat.float := PrimFloat.zero.
Definition VARIANCE : PrimFloat.float := PrimFloat.one.

(** The [while] loop of [str_to_bits]: the number of iterations left is
    [width - len(str_bin)], on which the recursion runs. *)
Fixpoint pad_loop (todo : nat) (width : nat) (str_bin : list ascii) : list ascii :=
  match todo with
  | O => str_bin
  | S todo' =>
      if (length str_bin <? width)%nat
      then pad_loop todo' width ("0"%char :: str_bin)
      else str_bin
  end.

Definition pad_zeros (width : nat) (str_bin : list ascii) : list ascii :=
  pad_loop (width - length str_bin) width str_bin.

Definition str_to_bits (str_ : list N) : result (list ascii) :=
  let str_bytes := Py.encode_ascii_replace str_ in
  str_int <- Py.int 16 (Py.bytes_hex str_bytes) ;;
  let str_bin := Py.lstrip (Py.lit "0b") (Py.bin str_int) in
  Ok (pad_zeros (8 * length str_) str_bin).

(** The encoder's loop state: the sliding [window] and the [code]
    emitted so far. *)
Definition enc_state : Type := (list Z * list Z)%type.

(** One pass through the body of the [for] loop, [bit] already
    converted. *)
Definition encode_step (st : enc_state) (bit : Z) : result enc_state :=
  let '(window, code) := st in
  let symbol := (2 * bit - 1)%Z in
  w0 <- Py.index window 0 ;;
  w1 <- Py.index window 1 ;;
  w2 <- Py.index window 2 ;;
  let code := code ++ [ (w0 * w1 * symbol)%Z;
                        (w1 * w2 * symbol)%Z;
                        (w0 * w2 * symbol)%Z;
                        (w0 * symbol)%Z ] in
  window <- Py.pop0 window ;;
  Ok (window ++ [symbol], code).

(** [map(int, message_bin)] is lazy: each character is converted when
    the loop reaches it. *)
Definition encode_iter (st : enc_state) (ch : ascii) : result enc_state :=
  bit <- Py.int 10 [ch] ;;
  encode_step st (Z.of_N bit).

Definition encode_loop (message_bin : list ascii) : result enc_state :=
  for_each encode_iter message_bin ([1; 1; 1]%Z, []).

(** [np.array(code, dtype=np.float64)]. *)
Definition np_array (code : list Z) : list Q := map inject_Z code.

Definition encode (message : list N) : result (list Q) :=
  message_bin <- str_to_bits message ;;
  st <- encode_loop message_bin ;;
  Ok (np_array (snd st)).

(** The channel.  The generator made by [default_rng()] is seeded from
    the operating system, so its draw [rng.normal(loc, scale, size)] is
    an unknown of the model. *)
Section Channel.

Variable rng_normal : PrimFloat.float -> PrimFloat.float -> nat -> list PrimFloat.float.

(** [np.sqrt] on a float. *)
Definition np_sqrt (x : PrimFloat.float) : PrimFloat.float := PrimFloat.sqrt x.

(** [signal + noise] on arrays of one shape: binary64 addition, sample
    by sample. *)
Fixpoint np_add (xs ys : list PrimFloat.float) : list PrimFloat.float :=
  match xs, ys with
  | x :: xs', y :: ys' => PrimFloat.add x y :: np_add xs' ys'
  | _, _ => []
  end.

Definition transmit (signal : list PrimFloat.float) (var : option PrimFloat.float)
  : list PrimFloat.float :=
  let var := Py.or_else var VARIANCE in
  let noise := rng_normal MEAN (np_sqrt var) (length signal) in
  np_add signal noise.

End Channel.

(* ================================================================== *)
(** * The trellis and the decoder of module [graph] *)
(* ================================================================== *)

(** [main.py] imports [viterbi] from the module [graph], whose source is
    not among the repository's sources.  The trellis and the decoder
    below are written from sections 4.1, 4.2 and 4.4 of the
    specification. *)

(** A bit sequence, and its rendering as the string of ['0'] and ['1']
    that [viterbi] hands to [decode]. *)
Definition bit_char (bit : bool) : ascii := if bit then "1"%char else "0"%char.
Definition bits_to_str (bits : list bool) : list ascii := map bit_char bits.

Module Trellis.

(** Modelled from the spec: the encoder state of section 3, the triple
    of the three most recent symbols, oldest first. *)
Definition state : Type := (Z * Z * Z)%type.

(** Modelled from the spec: the initial state, all +1 (section 4.2). *)
Definition initialState : state := (1, 1, 1)%Z.

(** Modelled from the spec: [bitToSymbol] of section 4.1, 0 to -1 and 1
    to +1. *)
Definition bitToSymbol (bit : bool) : Z := (2 * Z.b2z bit - 1)%Z.

(** Modelled from the spec: [transition] of section 4.2, in its words:
    with state [(a, b, c)] and symbol [s] the outputs are [a*b*s],
    [b*c*s], [a*c*s], [a*s] and the next state is [(b, c, s)]. *)
Definition transition (st : state) (bit : bool) : list Z * state :=
  let '(a, b, c) := st in
  let s := bitToSymbol bit in
  ([ (a * b * s)%Z; (b * c * s)%Z; (a * c * s)%Z; (a * s)%Z ], (b, c, s)).

(** Modelled from the spec: [allStates] of section 4.2. *)
Definition allStates : list state :=
  [ (-1, -1, -1); (-1, -1, 1); (-1, 1, -1); (-1, 1, 1);
    (1, -1, -1); (1, -1, 1); (1, 1, -1); (1, 1, 1) ]%Z.

(** Modelled from the spec: the index of a state, its position in
    [allStates]. *)
Definition state_id (st : state) : nat :=
  let '(a, b, c) := st in
  (if (0 <? a)%Z then 4 else 0) + (if (0 <? b)%Z then 2 else 0)
  + (if (0 <? c)%Z then 1 else 0).

(** Modelled from the spec: the encoder of section 4.3 in its words:
    from [st], for each bit in order call [transition], append its
    outputs and go on from the next state. *)
Fixpoint walk (st : state) (bits : list bool) : list Z :=
  match bits with
  | [] => []
  | bit :: rest =>
      let '(outs, st') := transition st bit in
      outs ++ walk st' rest
  end.

(** Modelled from the spec: the state that walk ends in. *)
Fixpoint walk_end (st : state) (bits : list bool) : state :=
  match bits with
  | [] => st
  | bit :: rest => walk_end (snd (transition st bit)) rest
  end.

End Trellis.

Module Graph.

Import Trellis.

(** Modelled from the spec: the sum of squared differences of two
    sample sequences, the branch metric of section 4.4 on four samples
    and the total distance on whole codewords. *)
Fixpoint sqdist (xs ys : list Q) : Q :=
  match xs, ys with
  | x :: xs', y :: ys' => ((x - y) * (x - y) + sqdist xs' ys')%Q
  | _, _ => 0%Q
  end.

(** Modelled from the spec: a path metric; [None] is +infinity (state
    not reached). *)
Definition metric : Type := option Q.

(** Modelled from the spec: the order of path metrics, +infinity
    last. *)
Definition metric_le (m1 m2 : metric) : bool :=
  match m1, m2 with
  | _, None => true
  | None, Some _ => false
  | Some a, Some b => Qle_bool a b
  end.

(** Modelled from the spec: one cell of the path metric table, the
    metric and the back-pointer (predecessor state and input bit). *)
Definition entry : Type := (metric * option (state * bool))%type.

(** Modelled from the spec: one time step of the table, addressed by
    [state_id]. *)
Definition column : Type := list entry.

(** Modelled from the spec: the cell of a state not reached, and the
    column of 8 such cells. *)
Definition unreached : entry := (None, None).

Definition empty_column : column := repeat unreached 8.

(** Modelled from the spec: reading and writing the cell of a state. *)
Definition get (col : column) (st : state) : entry :=
  nth (state_id st) col unreached.

Fixpoint update (i : nat) (e : entry) (col : column) : column :=
  match col, i with
  | [], _ => []
  | _ :: rest, O => e :: rest
  | e0 :: rest, S i' => e0 :: update i' e rest
  end.

Definition set (col : column) (st : state) (e : entry) : column :=
  update (state_id st) e col.

(** Modelled from the spec: time step 0, metric 0 at the initial state
    and +infinity elsewhere. *)
Definition column0 : column := set empty_column initialState (Some 0%Q, None).

(** Modelled from the spec: the (state, input bit) pairs examined at
    every step, in iteration order. *)
Definition candidates : list (state * bool) :=
  flat_map (fun st => [(st, false); (st, true)]) allStates.

(** Modelled from the spec: proposes the transition [cand] out of
    column [prev] to column [next].  The candidate replaces the metric
    kept at the next state only when it is strictly smaller, so of tied
    candidates the first in iteration order stays (the specification
    leaves the choice open but wants it fixed). *)
Definition relax (y : list Q) (prev next : column) (cand : state * bool) : column :=
  let '(st, bit) := cand in
  match fst (get prev st) with
  | None => next
  | Some m =>
      let '(outs, st') := transition st bit in
      let c := (m + sqdist (map inject_Z outs) y)%Q in
      if metric_le (fst (get next st')) (Some c) then next
      else set next st' (Some c, Some (st, bit))
  end.

(** Modelled from the spec: one time step of the forward pass, all
    candidates proposed to a fresh column. *)
Definition step (y : list Q) (prev : column) : column :=
  fold_left (relax y prev) candidates empty_column.

(** Modelled from the spec: the forward pass, four samples a time step.
    The table is kept with the latest column first. *)
Fixpoint forward (table : list column) (samples : list Q) : list column :=
  match samples with
  | y0 :: y1 :: y2 :: y3 :: rest =>
      forward (step [y0; y1; y2; y3] (hd empty_column table) :: table) rest
  | _ => table
  end.

(** Modelled from the spec: the terminal state, of least metric in the
    last column (the first such in [allStates]). *)
Definition best_state (col : column) : state :=
  fold_left
    (fun best st =>
       if metric_le (fst (get col best)) (fst (get col st)) then best else st)
    allStates (hd initialState allStates).

(** Modelled from the spec: the traceback along the back-pointers from
    [st] in the latest column; the bits come out latest first. *)
Fixpoint traceback (table : list column) (st : state) : list bool :=
  match table with
  | [] => []
  | col :: older =>
      match snd (get col st) with
      | Some (pred, bit) => bit :: traceback older pred
      | None => []
      end
  end.

(** Modelled from the spec: [graph.viterbi], which [main.py] imports and
    whose source file is not part of the repository's sources.  Section
    4.4 of the specification: the length precondition, the forward pass
    over the path metric table, the choice of the terminal state of
    least metric and the traceback along the back-pointers, reversed.
    [decode] reads component 1 of the result as the decoded bit string;
    component 0 is taken to be the metric of the winning path. *)
Definition viterbi (word : list Q) : result (metric * list ascii) :=
  if ((0 <? length word) && (length word mod 4 =? 0))%nat then
    let table := forward [column0] word in
    let last := hd empty_column table in
    let st := best_state last in
    Ok (fst (get last st), bits_to_str (rev (traceback table st)))
  else Raise LengthContractError.

End Graph.

(* ================================================================== *)
(** * main.py, continued: the decoder *)
(* ================================================================== *)

(** The conversion of the decoded bit string to text, the second half
    of [decode]. *)
Definition bits_to_text (message_bin : list ascii) : result (list N) :=
  n <- Py.int 2 message_bin ;;
  let message_hex := Py.lstrip (Py.lit "0x") (Py.hex n) in
  let message_hex :=
    if (length message_hex mod 2 =? 0)%nat then message_hex
    else "0"%char :: message_hex in
  bs <- Py.bytearray_fromhex message_hex ;;
  Ok (Py.decode_ascii_replace bs).

(** The decoded bit string, [viterbi(word)[1]]: the first half of
    [decode]. *)
Definition decode_bits (word : list Q) : result (list ascii) :=
  r <- Graph.viterbi word ;; Ok (snd r).

Definition decode (word : list Q) : result (list N) :=
  message_bin <- decode_bits word ;;
  bits_to_text message_bin.

(* ================================================================== *)
(** * Numbers, digits and bits: the notions the statements use *)
(* ================================================================== *)

Module Numeral.

Import Py.

(** The number a digit sequence denotes, continuing from [acc]. *)
Definition value_from (b acc : N) (ds : list N) : N :=
  fold_left (fun v d => (b * v + d)%N) ds acc.

Definition value (b : N) (ds : list N) : N := value_from b 0 ds.

(** The two hexadecimal digits of each octet. *)
Definition nibbles (bs : list N) : list N :=
  flat_map (fun b => [(b / 16)%N; (b mod 16)%N]) bs.

(** The [w] low bits of [n], most significant first. *)
Fixpoint N_to_bits (w : nat) (n : N) : list bool :=
  match w with
  | O => []
  | S w' => N_to_bits w' (n / 2) ++ [N.odd n]
  end.

(** The big-endian 8-bit expansion of an octet. *)
Definition byte_bits (b : N) : list bool :=
  map (N.testbit b) [7; 6; 5; 4; 3; 2; 1; 0]%N.

(** [decode] completes an odd number of hexadecimal digits with a
    leading 0. *)
Definition even_pad (ds : list N) : list N :=
  if (length ds mod 2 =? 0)%nat then ds else 0%N :: ds.

End Numeral.

(** The encoder's window holding a trellis state. *)
Definition window_of (st : Trellis.state) : list Z :=
  let '(a, b, c) := st in [a; b; c].

(** A symbol is +1 or -1. *)
Definition is_symbol (x : Z) : Prop := x = 1%Z \/ x = (-1)%Z.

(** The codeword the encoder's loop emits for a bit sequence. *)
Definition codeword (bits : list bool) : list Q :=
  match encode_loop (bits_to_str bits) with
  | Ok st => np_array (snd st)
  | Raise _ => []
  end.

(** The squared Euclidean distance of the codeword of [bits] to the
    samples. *)
Definition cost (bits : list bool) (samples : list Q) : Q :=
  Graph.sqdist (codeword bits) samples.

(** The branch metric of a transition against one block of samples. *)
Definition branch_metric (st : Trellis.state) (bit : bool) (y : list Q) : Q :=
  Graph.sqdist (map inject_Z (fst (Trellis.transition st bit))) y.

(** What holds of the column under construction once the candidates
    [seen] have been proposed: a state without metric is the target of
    no candidate leaving a reached state, and a metric is that of a
    candidate, recorded in the back-pointer, and the least among the
    candidates for that state. *)
Definition relax_inv (y : list Q) (prev : Graph.column)
    (seen : list (Trellis.state * bool)) (next : Graph.column) : Prop :=
  length next = 8 /\
  (forall st', In st' Trellis.allStates -> fst (Graph.get next st') = None ->
     forall st bit m, In (st, bit) seen -> fst (Graph.get prev st) = Some m ->
                      snd (Trellis.transition st bit) <> st') /\
  (forall st' m', In st' Trellis.allStates -> fst (Graph.get next st') = Some m' ->
     exists st bit m,
       snd (Graph.get next st') = Some (st, bit) /\ In (st, bit) seen /\
       fst (Graph.get prev st) = Some m /\
       snd (Trellis.transition st bit) = st' /\
       m' = (m + branch_metric st bit y)%Q /\
       forall st2 bit2 m2,
         In (st2, bit2) seen -> fst (Graph.get prev st2) = Some m2 ->
         snd (Trellis.transition st2 bit2) = st' ->
         (m' <= m2 + branch_metric st2 bit2 y)%Q).

(** What holds of the path metric table after the samples [pre]: a state
    without metric ends no path of that many bits, and a metric is the
    cost of the path the traceback yields, which ends in that state and
    costs no more than any other path ending there. *)
Definition table_ok (col : Graph.column) (older : list Graph.column)
    (pre : list Q) : Prop :=
  length col = 8 /\ length pre = 4 * length older /\
  (forall st, In st Trellis.allStates -> fst (Graph.get col st) = None ->
     forall p, length p = length older ->
               Trellis.walk_end Trellis.initialState p <> st) /\
  (forall st m, In st Trellis.allStates -> fst (Graph.get col st) = Some m ->
     let p := rev (Graph.traceback (col :: older) st) in
     length p = length older /\
     Trellis.walk_end Trellis.initialState p = st /\
     (m == cost p pre)%Q /\
     forall p', length p' = length older ->
                Trellis.walk_end Trellis.initialState p' = st ->
                (m <= cost p' pre)%Q).

(** ** Exhaustive search

    All bit sequences of length [n], and the first of them at least
    distance from the samples. *)
Fixpoint all_bits (n : nat) : list (list bool) :=
  match n with
  | O => [[]]
  | S n' => map (cons false) (all_bits n') ++ map (cons true) (all_bits n')
  end.

Definition brute_force (n : nat) (samples : list Q) : list bool :=
  fold_left
    (fun best cand =>
       if Qle_bool (cost best samples) (cost cand samples) then best else cand)
    (all_bits n) (repeat false n).

(** A message without its leading NUL characters. *)
Fixpoint strip_nul (message : list N) : list N :=
  match message with
  | 0%N :: rest => strip_nul rest
  | _ => message
  end.

(** A sample within distance 1 of the sample sent. *)
Definition near (sent received : Q) : Prop :=
  (-1 < received - sent)%Q /\ (received - sent < 1)%Q.

(* ================================================================== *)
(** * Numerals: printing, reading and padding *)
(* ================================================================== *)

Section NumeralFacts.

Import Py Numeral.

Lemma pow2_le_pow (b k : N) : (2 <= b)%N -> (2 ^ k <= b ^ k)%N.
Proof. intros Hb. apply N.pow_le_mono_l. exact Hb. Qed.

Lemma digits_aux_enough (b : N) :
  (2 <= b)%N ->
  forall f1 f2 n, (n < b ^ N.of_nat f1)%N -> (n < b ^ N.of_nat f2)%N ->
                  digits_aux f1 b n = digits_aux f2 b n.
Proof.
  intros Hb. induction f1 as [|f1 IH]; intros f2 n H1 H2.
  - simpl in H1. assert (n = 0%N) by lia. subst n. destruct f2; reflexivity.
  - destruct f2 as [|f2].
    + simpl in H2. assert (n = 0%N) by lia. subst n. reflexivity.
    + simpl. destruct (N.eqb_spec n 0) as [|Hn]; [reflexivity|].
      f_equal. rewrite Nat2N.inj_succ, N.pow_succ_r' in H1, H2.
      apply IH; apply N.Div0.div_lt_upper_bound; lia.
Qed.

Lemma digits_0 b : digits b 0 = [].
Proof. reflexivity. Qed.

Lemma size_bound (b n : N) : (2 <= b)%N -> (n < b ^ N.of_nat (N.to_nat (N.size n)))%N.
Proof.
  intros Hb. rewrite N2Nat.id.
  pose proof (N.size_gt n). pose proof (pow2_le_pow b (N.size n) Hb). lia.
Qed.

Lemma digits_step (b n : N) :
  (2 <= b)%N -> n <> 0%N -> digits b n = digits b (n / b) ++ [(n mod b)%N].
Proof.
  intros Hb Hn. unfold digits.
  rewrite (digits_aux_enough b Hb _ (S (N.to_nat (N.size (n / b)))) n).
  - simpl. destruct (N.eqb_spec n 0); [contradiction | reflexivity].
  - apply size_bound; assumption.
  - rewrite Nat2N.inj_succ, N.pow_succ_r'.
    pose proof (size_bound b (n / b) Hb).
    pose proof (N.div_mod n b ltac:(lia)).
    pose proof (N.mod_lt n b ltac:(lia)). nia.
Qed.

(** Induction along the digits of a number. *)
Lemma digits_ind (b : N) (P : N -> list N -> Prop) :
  (2 <= b)%N ->
  P 0%N [] ->
  (forall n, n <> 0%N -> P (n / b)%N (digits b (n / b)) ->
             P n (digits b (n / b) ++ [(n mod b)%N])) ->
  forall n, P n (digits b n).
Proof.
  intros Hb H0 Hstep n.
  induction n as [n IH] using (well_founded_induction N.lt_wf_0).
  destruct (N.eq_dec n 0) as [->|Hn]; [exact H0|].
  rewrite (digits_step b n Hb Hn). apply Hstep; [exact Hn|].
  apply IH. apply N.div_lt; lia.
Qed.

Lemma value_from_app b acc ds1 ds2 :
  value_from b acc (ds1 ++ ds2) = value_from b (value_from b acc ds1) ds2.
Proof. unfold value_from. apply fold_left_app. Qed.

Lemma value_snoc b ds d : value b (ds ++ [d]) = (b * value b ds + d)%N.
Proof. unfold value. rewrite value_from_app. reflexivity. Qed.

Lemma value_digits b n : (2 <= b)%N -> value b (digits b n) = n.
Proof.
  intros Hb. apply (digits_ind b (fun n ds => value b ds = n) Hb).
  - reflexivity.
  - intros m Hm IH. rewrite value_snoc, IH.
    symmetry. apply N.div_mod. lia.
Qed.

Lemma digits_bounded b n : (2 <= b)%N -> Forall (fun d => (d < b)%N) (digits b n).
Proof.
  intros Hb. apply (digits_ind b (fun _ ds => Forall (fun d => (d < b)%N) ds) Hb).
  - constructor.
  - intros m Hm IH. apply Forall_app. split; [exact IH|].
    constructor; [|constructor]. apply N.mod_lt. lia.
Qed.

(** The leading digit of a positive number is not 0. *)
Lemma digits_head b n :
  (2 <= b)%N -> n <> 0%N ->
  exists d rest, digits b n = d :: rest /\ d <> 0%N /\ (d < b)%N.
Proof.
  intros Hb.
  apply (digits_ind b (fun n ds => n <> 0%N ->
           exists d rest, ds = d :: rest /\ d <> 0%N /\ (d < b)%N) Hb).
  - intros H. contradiction.
  - intros m Hm IH _.
    destruct (N.eq_dec (m / b) 0) as [Hq|Hq].
    + rewrite Hq, digits_0. exists (m mod b)%N, []. simpl.
      split; [reflexivity|]. split; [|apply N.mod_lt; lia].
      pose proof (N.div_mod m b ltac:(lia)). lia.
    + destruct (IH Hq) as (d & rest & E & Hd & Hlt).
      rewrite E. exists d, (rest ++ [(m mod b)%N]). auto.
Qed.

(** A digit sequence without leading zero is the digit sequence of its
    value. *)
Lemma digits_value b ds :
  (2 <= b)%N -> Forall (fun d => (d < b)%N) ds -> hd_error ds <> Some 0%N ->
  digits b (value b ds) = ds.
Proof.
  intros Hb. induction ds as [|d ds IH] using rev_ind; intros Hall Hhd.
  - reflexivity.
  - apply Forall_app in Hall. destruct Hall as [Hds Hd].
    inversion Hd as [|? ? Hdb _]; subst.
    rewrite value_snoc.
    assert (Hdiv : ((b * value b ds + d) / b = value b ds)%N).
    { rewrite N.mul_comm, N.div_add_l by lia. rewrite N.div_small by exact Hdb. lia. }
    assert (Hmod : ((b * value b ds + d) mod b = d)%N).
    { rewrite N.add_comm, N.mul_comm, N.Div0.mod_add. apply N.mod_small. exact Hdb. }
    destruct ds as [|d0 ds'].
    + simpl in *. unfold value in *. simpl in *.
      assert (d <> 0%N) by congruence.
      rewrite digits_step by lia. rewrite Hdiv, Hmod. reflexivity.
    + assert (Hhd' : hd_error (d0 :: ds') <> Some 0%N) by exact Hhd.
      specialize (IH Hds Hhd').
      assert (Hv : value b (d0 :: ds') <> 0%N).
      { intros E. rewrite E in IH. rewrite digits_0 in IH. discriminate. }
      rewrite digits_step by nia. rewrite Hdiv, Hmod, IH. reflexivity.
Qed.

Lemma small_cases (d : N) :
  (d < 16)%N ->
  In d [0;1;2;3;4;5;6;7;8;9;10;11;12;13;14;15]%N.
Proof. intros H. simpl. lia. Qed.

Ltac each_digit d H :=
  apply small_cases in H; simpl in H;
  repeat (destruct H as [H|H]; [subst d|]); [..|contradiction].

Lemma digit_val_char d : (d < 16)%N -> digit_val (digit_char d) = Some d.
Proof. intros H. each_digit d H; reflexivity. Qed.

Lemma parse_digits_render base acc ds :
  (base <= 16)%N -> Forall (fun d => (d < base)%N) ds ->
  parse_digits base acc (map digit_char ds) = Ok (value_from base acc ds).
Proof.
  intros Hb Hall. revert acc.
  induction Hall as [|d ds Hd _ IH]; intros acc; [reflexivity|].
  simpl. rewrite digit_val_char by lia.
  destruct (N.ltb_spec d base); [|lia]. apply IH.
Qed.

Lemma int_render base ds :
  (base <= 16)%N -> Forall (fun d => (d < base)%N) ds -> ds <> [] ->
  Py.int base (map digit_char ds) = Ok (value base ds).
Proof.
  intros Hb Hall Hne. destruct ds as [|d ds]; [contradiction|].
  unfold Py.int. cbn [map]. apply (parse_digits_render base 0 (d :: ds) Hb Hall).
Qed.

Lemma bytes_hex_nibbles bs : bytes_hex bs = map digit_char (nibbles bs).
Proof.
  unfold bytes_hex, nibbles. induction bs as [|b bs IH]; [reflexivity|].
  simpl. rewrite IH. reflexivity.
Qed.

Lemma nibbles_bounded bs :
  Forall (fun b => (b < 256)%N) bs -> Forall (fun d => (d < 16)%N) (nibbles bs).
Proof.
  induction 1 as [|b bs Hb _ IH]; [constructor|].
  simpl. constructor; [|constructor; [|exact IH]].
  - apply N.Div0.div_lt_upper_bound. lia.
  - apply N.mod_lt. lia.
Qed.

Lemma value_from_nibbles acc bs :
  value_from 16 acc (nibbles bs) = value_from 256 acc bs.
Proof.
  revert acc. induction bs as [|b bs IH]; intros acc; [reflexivity|].
  cbn [nibbles flat_map app]. unfold value_from in *. cbn [fold_left].
  change (flat_map (fun b => [(b / 16)%N; (b mod 16)%N]) bs) with (nibbles bs).
  rewrite IH. f_equal.
  pose proof (N.div_mod b 16 ltac:(lia)). lia.
Qed.

Lemma int_bytes_hex bs :
  Forall (fun b => (b < 256)%N) bs -> bs <> [] ->
  Py.int 16 (bytes_hex bs) = Ok (value 256 bs).
Proof.
  intros Hall Hne. rewrite bytes_hex_nibbles.
  rewrite int_render.
  - unfold value. rewrite value_from_nibbles. reflexivity.
  - lia.
  - apply nibbles_bounded. exact Hall.
  - destruct bs; [contradiction | discriminate].
Qed.

(** [lstrip] leaves alone a string that starts outside the stripped set. *)
Lemma lstrip_stop chars c s :
  existsb (Ascii.eqb c) chars = false -> lstrip chars (c :: s) = c :: s.
Proof. intros H. simpl. rewrite H. reflexivity. Qed.

Lemma lstrip_numeral (prefix : list ascii) (b n : N) :
  (2 <= b <= 16)%N ->
  (forall c, In c prefix -> existsb (Ascii.eqb c) prefix = true) ->
  existsb (Ascii.eqb "0"%char) prefix = true ->
  (forall d, d <> 0%N -> (d < b)%N ->
             existsb (Ascii.eqb (digit_char d)) prefix = false) ->
  lstrip prefix (prefix ++ numeral b n) = map digit_char (digits b n).
Proof.
  intros Hb Hin H0 Hd.
  assert (Hpre : forall p s, (forall c, In c p -> existsb (Ascii.eqb c) prefix = true) ->
                             lstrip prefix (p ++ s) = lstrip prefix s).
  { induction p as [|c p IH]; intros s Hp; [reflexivity|].
    simpl. rewrite (Hp c (or_introl eq_refl)). apply IH.
    intros c' Hc'. apply Hp. right. exact Hc'. }
  rewrite Hpre by exact Hin.
  unfold numeral. destruct (N.eqb_spec n 0) as [->|Hn].
  - simpl. rewrite H0. reflexivity.
  - destruct (digits_head b n ltac:(lia) Hn) as (d & rest & E & Hd0 & Hdb).
    rewrite E. cbn [map]. apply lstrip_stop. apply Hd; assumption.
Qed.

Lemma lstrip_bin n :
  lstrip (lit "0b") (bin n) = map digit_char (digits 2 n).
Proof.
  unfold bin. apply lstrip_numeral.
  - lia.
  - intros c [<-|[<-|[]]]; reflexivity.
  - reflexivity.
  - intros d Hd Hlt. assert (d = 1%N) by lia. subst d. reflexivity.
Qed.

Lemma lstrip_hex n :
  lstrip (lit "0x") (hex n) = map digit_char (digits 16 n).
Proof.
  unfold hex. apply lstrip_numeral.
  - lia.
  - intros c [<-|[<-|[]]]; reflexivity.
  - reflexivity.
  - intros d Hd Hlt. each_digit d Hlt; try reflexivity. contradiction.
Qed.

Lemma repeat_shift {A} (a : A) n s : repeat a n ++ a :: s = a :: repeat a n ++ s.
Proof. induction n as [|n IH]; [reflexivity|]. simpl. rewrite IH. reflexivity. Qed.

Lemma pad_loop_spec todo width s :
  todo = width - length s ->
  pad_loop todo width s = repeat "0"%char todo ++ s.
Proof.
  revert s. induction todo as [|todo IH]; intros s E; [reflexivity|].
  simpl. destruct (Nat.ltb_spec (length s) width); [|lia].
  rewrite IH by (simpl; lia). apply repeat_shift.
Qed.

Lemma pad_zeros_spec width s :
  pad_zeros width s = repeat "0"%char (width - length s) ++ s.
Proof. unfold pad_zeros. apply pad_loop_spec. reflexivity. Qed.

Lemma bits_to_str_app b1 b2 :
  bits_to_str (b1 ++ b2) = bits_to_str b1 ++ bits_to_str b2.
Proof. apply map_app. Qed.

Lemma length_N_to_bits w n : length (N_to_bits w n) = w.
Proof.
  revert n. induction w as [|w IH]; intros n; [reflexivity|].
  simpl. rewrite length_app, IH. simpl. lia.
Qed.

Lemma mod2_odd n : digit_char (n mod 2) = bit_char (N.odd n).
Proof.
  rewrite <- N.bit0_mod, N.bit0_odd. destruct (N.odd n); reflexivity.
Qed.

Lemma padded_digits_bits w : forall n,
  repeat "0"%char (w - length (digits 2 n)) ++ map digit_char (digits 2 n)
  = bits_to_str (N_to_bits w n) \/ (2 ^ N.of_nat w <= n)%N.
Proof.
  induction w as [|w IH]; intros n.
  - destruct (N.eq_dec n 0) as [->|Hn]; [left; reflexivity|].
    right. simpl. lia.
  - destruct (N.eq_dec n 0) as [->|Hn].
    + left. destruct (IH 0%N) as [E|E]; [|exfalso; pose proof (N.pow_nonzero 2 (N.of_nat w)); lia].
      rewrite digits_0 in *. simpl length in *. rewrite Nat.sub_0_r in *.
      rewrite app_nil_r in *.
      change (N_to_bits (S w) 0) with (N_to_bits w 0 ++ [false]).
      rewrite bits_to_str_app, <- E.
      change (repeat "0"%char (S w)) with ("0"%char :: repeat "0"%char w).
      rewrite repeat_cons. reflexivity.
    + destruct (IH (n / 2)%N) as [E|E].
      * left. rewrite digits_step by lia. rewrite length_app, map_app. simpl length.
        replace (S w - (length (digits 2 (n / 2)) + 1)) with (w - length (digits 2 (n / 2))) by lia.
        rewrite app_assoc, E. simpl N_to_bits. rewrite bits_to_str_app. simpl.
        rewrite mod2_odd. reflexivity.
      * right. rewrite Nat2N.inj_succ, N.pow_succ_r'.
        pose proof (N.div_mod n 2 ltac:(lia)) as Hdm.
        revert E Hdm. generalize (2 ^ N.of_nat w)%N (n / 2)%N (n mod 2)%N. lia.
Qed.

Lemma odd_div_testbit n k : N.odd (n / 2 ^ k) = N.testbit n k.
Proof. rewrite N.testbit_odd, N.shiftr_div_pow2. reflexivity. Qed.

Lemma byte_bits_N_to_bits b : byte_bits b = N_to_bits 8 b.
Proof.
  unfold byte_bits. cbn [map N_to_bits app].
  rewrite <- !odd_div_testbit. rewrite !N.Div0.div_div.
  rewrite N.div_1_r. reflexivity.
Qed.

Lemma N_to_bits_split k : forall w v b,
  (b < 2 ^ N.of_nat k)%N ->
  N_to_bits (k + w) (2 ^ N.of_nat k * v + b) = N_to_bits w v ++ N_to_bits k b.
Proof.
  induction k as [|k IH]; intros w v b Hb.
  - change (2 ^ N.of_nat 0)%N with 1%N in *.
    assert (b = 0%N) by lia. subst b.
    cbn [Nat.add N_to_bits]. rewrite app_nil_r. f_equal. lia.
  - rewrite Nat2N.inj_succ, N.pow_succ_r' in *.
    cbn [Nat.add N_to_bits].
    assert (Hdiv : ((2 * 2 ^ N.of_nat k * v + b) / 2 = 2 ^ N.of_nat k * v + b / 2)%N).
    { replace (2 * 2 ^ N.of_nat k * v + b)%N with (2 ^ N.of_nat k * v * 2 + b)%N by lia.
      rewrite N.div_add_l by lia. reflexivity. }
    assert (Hodd : N.odd (2 * 2 ^ N.of_nat k * v + b) = N.odd b).
    { replace (2 * 2 ^ N.of_nat k * v + b)%N with (b + 2 * (2 ^ N.of_nat k * v))%N by lia.
      apply N.odd_add_mul_2. }
    rewrite Hdiv, Hodd, IH.
    + rewrite app_assoc. reflexivity.
    + apply N.Div0.div_lt_upper_bound. exact Hb.
Qed.

Lemma value_bound bs :
  Forall (fun b => (b < 256)%N) bs -> (value 256 bs < 2 ^ N.of_nat (8 * length bs))%N.
Proof.
  induction bs as [|b bs IH] using rev_ind; intros Hall.
  - simpl. unfold value. simpl. lia.
  - apply Forall_app in Hall. destruct Hall as [Hbs Hb].
    inversion Hb as [|? ? Hlt _]; subst.
    rewrite value_snoc, length_app. simpl length.
    replace (8 * (length bs + 1)) with (8 + 8 * length bs) by lia.
    rewrite Nat2N.inj_add, N.pow_add_r.
    specialize (IH Hbs). change (2 ^ N.of_nat 8)%N with 256%N.
    revert IH. generalize (2 ^ N.of_nat (8 * length bs))%N (value 256 bs). lia.
Qed.

Lemma value_bits bs :
  Forall (fun b => (b < 256)%N) bs ->
  N_to_bits (8 * length bs) (value 256 bs) = flat_map byte_bits bs.
Proof.
  induction bs as [|b bs IH] using rev_ind; intros Hall.
  - reflexivity.
  - apply Forall_app in Hall. destruct Hall as [Hbs Hb].
    inversion Hb as [|? ? Hlt _]; subst.
    rewrite value_snoc, length_app, flat_map_app. simpl length.
    replace (8 * (length bs + 1)) with (8 + 8 * length bs) by lia.
    change 256%N with (2 ^ N.of_nat 8)%N at 1.
    rewrite N_to_bits_split by exact Hlt.
    rewrite (IH Hbs). cbn [flat_map]. rewrite app_nil_r, byte_bits_N_to_bits.
    reflexivity.
Qed.

Lemma encode_ascii_bounded s :
  Forall (fun b => (b < 128)%N) (encode_ascii_replace s).
Proof.
  unfold encode_ascii_replace. apply Forall_map. apply Forall_forall.
  intros c _. destruct (N.ltb_spec c 128); lia.
Qed.

Lemma bytes_of_ascii bs :
  Forall (fun b => (b < 128)%N) bs -> Forall (fun b => (b < 256)%N) bs.
Proof. apply Forall_impl. intros; lia. Qed.

Lemma str_to_bits_bytes s :
  s <> [] ->
  str_to_bits s = Ok (bits_to_str (flat_map byte_bits (encode_ascii_replace s))).
Proof.
  intros Hne. unfold str_to_bits.
  pose proof (bytes_of_ascii _ (encode_ascii_bounded s)) as Hb.
  rewrite int_bytes_hex; [|exact Hb|].
  2:{ destruct s; [contradiction | discriminate]. }
  cbn [bind]. rewrite lstrip_bin, pad_zeros_spec, length_map.
  f_equal.
  replace (length s) with (length (encode_ascii_replace s))
    by (unfold encode_ascii_replace; apply length_map).
  destruct (padded_digits_bits (8 * length (encode_ascii_replace s))
              (value 256 (encode_ascii_replace s))) as [E|E].
  - rewrite E, value_bits by exact Hb. reflexivity.
  - pose proof (value_bound _ Hb). lia.
Qed.

(** ** From bits back to text *)

Lemma bits_to_str_digits bits :
  bits_to_str bits = map digit_char (map N.b2n bits).
Proof.
  unfold bits_to_str. rewrite map_map. apply map_ext. intros []; reflexivity.
Qed.

Lemma int2_bits bits :
  bits <> [] -> Py.int 2 (bits_to_str bits) = Ok (value 2 (map N.b2n bits)).
Proof.
  intros Hne. rewrite bits_to_str_digits. apply int_render.
  - lia.
  - apply Forall_map, Forall_forall. intros [] _; simpl; lia.
  - destruct bits; [contradiction | discriminate].
Qed.

Lemma value_N_to_bits w : forall n,
  (n < 2 ^ N.of_nat w)%N -> value 2 (map N.b2n (N_to_bits w n)) = n.
Proof.
  induction w as [|w IH]; intros n Hn.
  - change (2 ^ N.of_nat 0)%N with 1%N in Hn. simpl. unfold value. simpl. lia.
  - cbn [N_to_bits]. rewrite map_app. cbn [map]. rewrite value_snoc.
    rewrite Nat2N.inj_succ, N.pow_succ_r' in Hn.
    rewrite IH by (apply N.Div0.div_lt_upper_bound; exact Hn).
    rewrite <- N.bit0_odd, N.bit0_mod.
    symmetry. apply N.div_mod. lia.
Qed.

Lemma even_pad_app2 ds x y : even_pad (ds ++ [x; y]) = even_pad ds ++ [x; y].
Proof.
  unfold even_pad. rewrite length_app. simpl length.
  replace ((length ds + 2) mod 2) with (length ds mod 2).
  - destruct (length ds mod 2 =? 0)%nat; reflexivity.
  - rewrite <- (Nat.Div0.mod_add (length ds) 1 2). f_equal.
Qed.

Lemma nibbles_app bs1 bs2 : nibbles (bs1 ++ bs2) = nibbles bs1 ++ nibbles bs2.
Proof. apply flat_map_app. Qed.

Lemma hex_pairs n : even_pad (digits 16 n) = nibbles (digits 256 n).
Proof.
  apply (digits_ind 256 (fun n bs => even_pad (digits 16 n) = nibbles bs));
    [lia | reflexivity |].
  intros m Hm IH. rewrite nibbles_app. cbn [nibbles flat_map app].
  assert (Hlo : ((m mod 256) mod 16 = m mod 16)%N).
  { change 256%N with (16 * 16)%N. rewrite N.Div0.mod_mul_r.
    rewrite N.mul_comm, N.Div0.mod_add. apply N.Div0.mod_mod. }
  assert (Hhi : ((m mod 256) / 16 = (m / 16) mod 16)%N).
  { change 256%N with (16 * 16)%N. rewrite N.Div0.mod_mul_r.
    rewrite N.mul_comm, N.div_add by lia.
    rewrite (N.div_small (m mod 16)) by (apply N.mod_lt; lia). reflexivity. }
  assert (Hdd : (m / 16 / 16 = m / 256)%N) by (rewrite N.Div0.div_div; reflexivity).
  rewrite Hlo, Hhi. rewrite (digits_step 16 m) by lia.
  destruct (N.eq_dec (m / 16) 0) as [Hq|Hq].
  - assert (Hq' : (m / 256 = 0)%N) by (rewrite <- Hdd, Hq; reflexivity).
    rewrite Hq, Hq', digits_0. reflexivity.
  - rewrite (digits_step 16 (m / 16)) by lia. rewrite Hdd, <- app_assoc.
    cbn [app]. rewrite even_pad_app2, IH. reflexivity.
Qed.

Lemma fromhex_nibbles bs :
  Forall (fun b => (b < 256)%N) bs ->
  bytearray_fromhex (map digit_char (nibbles bs)) = Ok bs.
Proof.
  induction 1 as [|b bs Hb _ IH]; [reflexivity|].
  cbn [nibbles flat_map app map bytearray_fromhex].
  change (flat_map (fun b => [(b / 16)%N; (b mod 16)%N]) bs) with (nibbles bs).
  assert (H1 : (b / 16 < 16)%N) by (apply N.Div0.div_lt_upper_bound; lia).
  assert (H2 : (b mod 16 < 16)%N) by (apply N.mod_lt; lia).
  rewrite !digit_val_char by assumption.
  destruct (N.ltb_spec (b / 16) 16); [|lia].
  destruct (N.ltb_spec (b mod 16) 16); [|lia].
  cbn [andb]. rewrite IH. cbn [bind]. f_equal. f_equal.
  symmetry. apply N.div_mod. lia.
Qed.

(** The text conversion reads the bit string as one number and writes
    out the octets of that number, none for 0 and no leading zero octet
    otherwise. *)
Lemma bits_to_text_value s n :
  Py.int 2 s = Ok n ->
  bits_to_text s = Ok (decode_ascii_replace (digits 256 n)).
Proof.
  intros E. unfold bits_to_text. rewrite E. cbn [bind].
  rewrite lstrip_hex, length_map.
  assert (Hpad : (if (length (digits 16 n) mod 2 =? 0)%nat
                  then map digit_char (digits 16 n)
                  else "0"%char :: map digit_char (digits 16 n))
                 = map digit_char (even_pad (digits 16 n))).
  { unfold even_pad. destruct (length (digits 16 n) mod 2 =? 0)%nat; reflexivity. }
  rewrite Hpad, hex_pairs, fromhex_nibbles by (apply digits_bounded; lia).
  reflexivity.
Qed.

End NumeralFacts.

(* ================================================================== *)
(** * The encoder walks the trellis *)
(* ================================================================== *)

Section EncoderFacts.

Import Py Numeral Trellis.

Lemma int10_bit bit : Py.int 10 [bit_char bit] = Ok (N.b2n bit).
Proof. destruct bit; reflexivity. Qed.

Lemma encode_step_window a b c code bit :
  encode_step ([a; b; c], code) bit
  = Ok ([b; c; (2 * bit - 1)%Z],
        code ++ [ (a * b * (2 * bit - 1))%Z; (b * c * (2 * bit - 1))%Z;
                  (a * c * (2 * bit - 1))%Z; (a * (2 * bit - 1))%Z ]).
Proof. reflexivity. Qed.

Lemma encode_iter_transition st code bit :
  encode_iter (window_of st, code) (bit_char bit)
  = Ok (window_of (snd (transition st bit)), code ++ fst (transition st bit)).
Proof.
  destruct st as [[a b] c]. unfold encode_iter. rewrite int10_bit. cbn [bind].
  cbn [window_of]. rewrite encode_step_window.
  destruct bit; reflexivity.
Qed.

Lemma transition_eta st bit :
  transition st bit = (fst (transition st bit), snd (transition st bit)).
Proof. destruct (transition st bit); reflexivity. Qed.

Lemma walk_cons st bit bits :
  walk st (bit :: bits) = fst (transition st bit) ++ walk (snd (transition st bit)) bits.
Proof. cbn [walk]. destruct (transition st bit); reflexivity. Qed.

Lemma for_each_encode bits : forall st code,
  for_each encode_iter (bits_to_str bits) (window_of st, code)
  = Ok (window_of (walk_end st bits), code ++ walk st bits).
Proof.
  induction bits as [|bit bits IH]; intros st code.
  - simpl. rewrite app_nil_r. reflexivity.
  - cbn [bits_to_str map for_each]. rewrite encode_iter_transition. cbn [bind].
    change (map bit_char bits) with (bits_to_str bits).
    rewrite IH, walk_cons, app_assoc. reflexivity.
Qed.

Lemma encode_loop_walk bits :
  encode_loop (bits_to_str bits)
  = Ok (window_of (walk_end initialState bits), walk initialState bits).
Proof. unfold encode_loop. apply (for_each_encode bits initialState []). Qed.

Lemma length_walk bits : forall st, length (walk st bits) = 4 * length bits.
Proof.
  induction bits as [|bit bits IH]; intros st; [reflexivity|].
  rewrite walk_cons, length_app, IH. destruct st as [[a b] c]. simpl. lia.
Qed.

Lemma length_byte_bits bs : length (flat_map byte_bits bs) = 8 * length bs.
Proof.
  induction bs as [|b bs IH]; [reflexivity|].
  cbn [flat_map]. rewrite length_app, IH. simpl. lia.
Qed.

(** What [encode] returns for a message that is not empty. *)
Lemma encode_walk message :
  message <> [] ->
  encode message
  = Ok (np_array (walk initialState
                    (flat_map byte_bits (encode_ascii_replace message)))).
Proof.
  intros Hne. unfold encode. rewrite str_to_bits_bytes by exact Hne.
  cbn [bind]. rewrite encode_loop_walk. reflexivity.
Qed.

Lemma encode_length message code :
  message <> [] -> encode message = Ok code ->
  length code = 32 * length message.
Proof.
  intros Hne E. rewrite encode_walk in E by exact Hne.
  injection E as <-. unfold np_array. rewrite length_map, length_walk.
  rewrite length_byte_bits. unfold encode_ascii_replace. rewrite length_map. lia.
Qed.

(** The states of the trellis are closed under the transition, and a
    transition out of one of them emits symbols. *)
Lemma transition_state st bit :
  In st allStates -> In (snd (transition st bit)) allStates.
Proof.
  intros H. simpl in H.
  repeat (destruct H as [H|H]; [subst st; destruct bit; simpl; tauto|]).
  contradiction.
Qed.

Lemma transition_symbols st bit :
  In st allStates -> Forall is_symbol (fst (transition st bit)).
Proof.
  intros H. simpl in H. unfold is_symbol.
  repeat (destruct H as [H|H];
          [subst st; destruct bit; cbn; repeat constructor; lia|]).
  contradiction.
Qed.

Lemma walk_end_state bits : forall st,
  In st allStates -> In (walk_end st bits) allStates.
Proof.
  induction bits as [|bit bits IH]; intros st H; [exact H|].
  cbn [walk_end]. apply IH, transition_state, H.
Qed.

Lemma initial_state : In initialState allStates.
Proof. simpl. tauto. Qed.

Lemma state_symbols st : In st allStates -> Forall is_symbol (window_of st).
Proof.
  intros H. simpl in H. unfold is_symbol.
  repeat (destruct H as [H|H]; [subst st; cbn; repeat constructor; lia|]).
  contradiction.
Qed.

End EncoderFacts.

(* ================================================================== *)
(** * The path metric table and the minimum-distance property *)
(* ================================================================== *)

Section ColumnFacts.

Import Trellis Graph.

Lemma length_update i e col : length (update i e col) = length col.
Proof.
  revert i. induction col as [|e0 col IH]; intros [|i]; simpl; auto.
Qed.

Lemma nth_update_same i e col d :
  i < length col -> nth i (update i e col) d = e.
Proof.
  revert i. induction col as [|e0 col IH]; intros [|i] H; simpl in *; try lia.
  - reflexivity.
  - apply IH. lia.
Qed.

Lemma nth_update_other i j e col d :
  i <> j -> nth j (update i e col) d = nth j col d.
Proof.
  revert i j. induction col as [|e0 col IH]; intros [|i] [|j] H; simpl; auto.
  contradiction.
Qed.

Lemma state_id_bound st : state_id st < 8.
Proof.
  destruct st as [[a b] c]. unfold state_id.
  destruct (0 <? a)%Z, (0 <? b)%Z, (0 <? c)%Z; simpl; lia.
Qed.

Lemma state_id_inj st1 st2 :
  In st1 allStates -> In st2 allStates -> state_id st1 = state_id st2 -> st1 = st2.
Proof.
  intros H1 H2. simpl in H1, H2.
  repeat (destruct H1 as [H1|H1]; [subst st1|]); try contradiction;
    repeat (destruct H2 as [H2|H2]; [subst st2|]); try contradiction;
    simpl; intros E; first [reflexivity | discriminate E].
Qed.

Lemma state_eq_dec (st1 st2 : state) : {st1 = st2} + {st1 <> st2}.
Proof. repeat decide equality. Qed.

Lemma length_set col st e : length (set col st e) = length col.
Proof. apply length_update. Qed.

Lemma get_set_same col st e : length col = 8 -> get (set col st e) st = e.
Proof.
  intros H. unfold get, set. apply nth_update_same.
  rewrite H. apply state_id_bound.
Qed.

Lemma get_set_other col st st' e :
  In st allStates -> In st' allStates -> st <> st' ->
  get (set col st e) st' = get col st'.
Proof.
  intros H H' Hne. unfold get, set. apply nth_update_other.
  intros E. apply Hne. apply state_id_inj; assumption.
Qed.

Lemma get_empty st : get empty_column st = unreached.
Proof.
  unfold get. pose proof (state_id_bound st) as H.
  destruct (state_id st) as [|[|[|[|[|[|[|[|n]]]]]]]]; try reflexivity. lia.
Qed.

End ColumnFacts.

Section ViterbiFacts.

Import Trellis Graph.

Lemma sqdist_app xs : forall ys xs' ys',
  length xs = length ys ->
  (sqdist (xs ++ xs') (ys ++ ys') == sqdist xs ys + sqdist xs' ys')%Q.
Proof.
  induction xs as [|x xs IH]; intros [|y ys] xs' ys' H; simpl in H; try discriminate.
  - cbn [app sqdist]. ring.
  - cbn [app sqdist]. rewrite IH by lia. ring.
Qed.

Lemma square_nonneg (a : Q) : (0 <= a * a)%Q.
Proof.
  destruct (Qlt_le_dec a 0) as [H|H].
  - setoid_replace (a * a)%Q with ((- a) * (- a))%Q by ring.
    apply Qmult_le_0_compat; lra.
  - apply Qmult_le_0_compat; exact H.
Qed.

Lemma sqdist_nonneg xs : forall ys, (0 <= sqdist xs ys)%Q.
Proof.
  induction xs as [|x xs IH]; intros [|y ys]; cbn [sqdist]; try lra.
  specialize (IH ys). pose proof (square_nonneg (x - y)). lra.
Qed.

Lemma metric_le_some a b : metric_le (Some a) (Some b) = true <-> (a <= b)%Q.
Proof. apply Qle_bool_iff. Qed.

Lemma in_snoc {A} (x y : A) l : In x (l ++ [y]) -> In x l \/ x = y.
Proof.
  intros H. apply in_app_or in H. destruct H as [H|[H|[]]]; auto.
Qed.

Lemma relax_inv_nil y prev : relax_inv y prev [] empty_column.
Proof.
  split; [reflexivity|]. split.
  - intros st' _ _ st bit m [].
  - intros st' m' _ H. rewrite get_empty in H. discriminate.
Qed.

Lemma relax_inv_snoc y prev seen next st bit :
  In st allStates ->
  relax_inv y prev seen next ->
  relax_inv y prev (seen ++ [(st, bit)]) (relax y prev next (st, bit)).
Proof.
  intros Hst (Hlen & Hnone & Hsome). unfold relax.
  destruct (fst (get prev st)) as [m|] eqn:Em.
  2:{ split; [exact Hlen|]. split.
      - intros st' Hv Hn st2 bit2 m2 Hin E2.
        apply in_snoc in Hin. destruct Hin as [Hin|Heq].
        + eapply Hnone; eauto.
        + injection Heq as -> ->. congruence.
      - intros st' m' Hv Hs.
        destruct (Hsome st' m' Hv Hs) as (s0 & b0 & m0 & Hbp & Hin & Hm0 & Hnext & Hm' & Hopt).
        exists s0, b0, m0. repeat split; auto.
        { apply in_or_app; auto. }
        intros st2 bit2 m2 Hin2 E2 Hn2.
        apply in_snoc in Hin2. destruct Hin2 as [Hin2|Heq].
        + eapply Hopt; eauto.
        + injection Heq as -> ->. congruence. }
  rewrite (transition_eta st bit).
  fold (branch_metric st bit y).
  set (st1 := snd (transition st bit)).
  assert (Hst1 : In st1 allStates) by (apply transition_state; exact Hst).
  set (c := (m + branch_metric st bit y)%Q).
  destruct (metric_le (fst (get next st1)) (Some c)) eqn:Ele.
  - (* the metric kept at [st1] is not improved *)
    destruct (fst (get next st1)) as [m0|] eqn:E0; [|discriminate].
    apply metric_le_some in Ele.
    split; [exact Hlen|]. split.
    + intros st' Hv Hn st2 bit2 m2 Hin E2.
      apply in_snoc in Hin. destruct Hin as [Hin|Heq].
      * eapply Hnone; eauto.
      * injection Heq as -> ->. fold st1. congruence.
    + intros st' m' Hv Hs.
      destruct (Hsome st' m' Hv Hs) as (s0 & b0 & m1 & Hbp & Hin & Hm1 & Hnext & Hm' & Hopt).
      exists s0, b0, m1. repeat split; auto.
      { apply in_or_app; auto. }
      intros st2 bit2 m2 Hin2 E2 Hn2.
      apply in_snoc in Hin2. destruct Hin2 as [Hin2|Heq].
      * eapply Hopt; eauto.
      * injection Heq as -> ->. fold st1 in Hn2.
        assert (H2 : m2 = m) by congruence.
        assert (H0 : m' = m0) by (rewrite <- Hn2 in Hs; congruence).
        rewrite H2, H0. exact Ele.
  - (* the candidate becomes the survivor at [st1] *)
    split; [rewrite length_set; exact Hlen|]. split.
    + intros st' Hv Hn st2 bit2 m2 Hin E2.
      destruct (state_eq_dec st1 st') as [<-|Hne].
      * rewrite get_set_same in Hn by exact Hlen. discriminate.
      * rewrite get_set_other in Hn by assumption.
        apply in_snoc in Hin. destruct Hin as [Hin|Heq].
        -- eapply Hnone; eauto.
        -- injection Heq as -> ->. exact Hne.
    + intros st' m' Hv Hs.
      destruct (state_eq_dec st1 st') as [<-|Hne].
      * rewrite get_set_same in Hs |- * by exact Hlen. cbn [fst snd] in *.
        injection Hs as <-.
        exists st, bit, m. repeat split; auto.
        { apply in_or_app. right. left. reflexivity. }
        intros st2 bit2 m2 Hin2 E2 Hn2.
        apply in_snoc in Hin2. destruct Hin2 as [Hin2|Heq].
        -- destruct (fst (get next st1)) as [m0|] eqn:E0.
           ++ destruct (Hsome st1 m0 Hst1 E0) as (_ & _ & _ & _ & _ & _ & _ & _ & Hopt).
              specialize (Hopt st2 bit2 m2 Hin2 E2 Hn2).
              assert (Hlt : ~ (m0 <= c)%Q).
              { intros Hle. apply metric_le_some in Hle. congruence. }
              lra.
           ++ exfalso. eapply (Hnone st1 Hst1 E0); eauto.
        -- injection Heq as -> ->.
           assert (H2 : m2 = m) by congruence. rewrite H2. unfold c. lra.
      * rewrite get_set_other in Hs |- * by assumption.
        destruct (Hsome st' m' Hv Hs) as (s0 & b0 & m1 & Hbp & Hin & Hm1 & Hnext & Hm' & Hopt).
        exists s0, b0, m1. repeat split; auto.
        { apply in_or_app; auto. }
        intros st2 bit2 m2 Hin2 E2 Hn2.
        apply in_snoc in Hin2. destruct Hin2 as [Hin2|Heq].
        -- eapply Hopt; eauto.
        -- injection Heq as -> ->. contradiction.
Qed.

Lemma relax_fold y prev todo : forall seen next,
  (forall st bit, In (st, bit) todo -> In st allStates) ->
  relax_inv y prev seen next ->
  relax_inv y prev (seen ++ todo) (fold_left (relax y prev) todo next).
Proof.
  induction todo as [|[st bit] todo IH]; intros seen next Hv H.
  - rewrite app_nil_r. exact H.
  - cbn [fold_left].
    replace (seen ++ (st, bit) :: todo) with ((seen ++ [(st, bit)]) ++ todo)
      by (rewrite <- app_assoc; reflexivity).
    apply IH.
    + intros st' bit' Hin. apply (Hv st' bit'). right. exact Hin.
    + apply relax_inv_snoc; [|exact H]. apply (Hv st bit). left. reflexivity.
Qed.

Lemma candidates_in st bit : In (st, bit) candidates <-> In st allStates.
Proof.
  unfold candidates. rewrite in_flat_map. split.
  - intros (s & Hs & [E|[E|[]]]); injection E as <- _; exact Hs.
  - intros H. exists st. split; [exact H|]. destruct bit; simpl; auto.
Qed.

Lemma step_inv y prev : relax_inv y prev candidates (step y prev).
Proof.
  apply (relax_fold y prev candidates [] empty_column).
  - intros st bit H. apply candidates_in in H. exact H.
  - apply relax_inv_nil.
Qed.

(** ** Paths through the trellis *)

Lemma walk_end_snoc p : forall st bit,
  walk_end st (p ++ [bit]) = snd (transition (walk_end st p) bit).
Proof.
  induction p as [|b p IH]; intros st bit; [reflexivity|].
  cbn [app walk_end]. apply IH.
Qed.

Lemma walk_snoc p : forall st bit,
  walk st (p ++ [bit]) = walk st p ++ fst (transition (walk_end st p) bit).
Proof.
  induction p as [|b p IH]; intros st bit.
  - cbn [app]. rewrite walk_cons. cbn [walk walk_end]. rewrite app_nil_r. reflexivity.
  - cbn [app]. rewrite !walk_cons, IH, app_assoc. reflexivity.
Qed.

Lemma codeword_walk bits : codeword bits = np_array (walk initialState bits).
Proof. unfold codeword. rewrite encode_loop_walk. reflexivity. Qed.

Lemma length_codeword bits : length (codeword bits) = 4 * length bits.
Proof. rewrite codeword_walk. unfold np_array. rewrite length_map. apply length_walk. Qed.

Lemma cost_snoc p bit pre y :
  length pre = 4 * length p ->
  (cost (p ++ [bit]) (pre ++ y)
   == cost p pre + branch_metric (walk_end initialState p) bit y)%Q.
Proof.
  intros Hlen. unfold cost, branch_metric. rewrite !codeword_walk, walk_snoc.
  unfold np_array. rewrite map_app. apply sqdist_app.
  rewrite length_map, length_walk. lia.
Qed.

Lemma snoc_inv {A} (l : list A) n :
  length l = S n -> exists q x, l = q ++ [x] /\ length q = n.
Proof.
  intros H. destruct l as [|a l] using rev_ind; [discriminate|].
  exists l, a. split; [reflexivity|]. rewrite length_app in H. simpl in H. lia.
Qed.

Lemma traceback_step col older st pred bit :
  snd (get col st) = Some (pred, bit) ->
  traceback (col :: older) st = bit :: traceback older pred.
Proof. intros H. cbn [traceback]. rewrite H. reflexivity. Qed.

(** A reached state has a metric in the table. *)
Lemma table_reached col older pre p :
  table_ok col older pre -> length p = length older ->
  exists m, fst (get col (walk_end initialState p)) = Some m.
Proof.
  intros (_ & _ & Hnone & _) Hp.
  destruct (fst (get col (walk_end initialState p))) as [m|] eqn:E.
  - exists m. reflexivity.
  - exfalso. eapply Hnone; eauto. apply walk_end_state, initial_state.
Qed.

Lemma table_step col older pre y :
  length y = 4 ->
  table_ok col older pre ->
  table_ok (step y col) (col :: older) (pre ++ y).
Proof.
  intros Hy Hok. pose proof Hok as (Hlen & Hpre & Hnone & Hsome).
  destruct (step_inv y col) as (Hlen' & Hnone' & Hsome').
  split; [exact Hlen'|]. split.
  { rewrite length_app, Hy, Hpre. simpl. lia. }
  split.
  - intros st' Hv Hn p' Hp' Hend.
    destruct (snoc_inv p' _ Hp') as (q & b & -> & Hq).
    rewrite walk_end_snoc in Hend.
    destruct (table_reached col older pre q Hok Hq) as (m & Em).
    eapply (Hnone' st' Hv Hn); [|exact Em|exact Hend].
    apply candidates_in, walk_end_state, initial_state.
  - intros st' m' Hv Hs.
    destruct (Hsome' st' m' Hv Hs) as (st & bit & m & Hbp & Hin & Em & Hnext & Hm' & Hopt).
    apply candidates_in in Hin.
    pose proof (Hsome st m Hin Em) as H0. cbv zeta in H0.
    destruct H0 as (Hp0 & Hend0 & Hcost0 & Hopt0).
    cbv zeta. rewrite (traceback_step _ _ _ _ _ Hbp). cbn [rev].
    set (p0 := rev (traceback (col :: older) st)) in *.
    split; [rewrite length_app, Hp0; simpl; lia|].
    split; [rewrite walk_end_snoc, Hend0; exact Hnext|].
    split.
    + pose proof (cost_snoc p0 bit pre y ltac:(lia)) as Hc.
      rewrite Hend0 in Hc. rewrite Hm'. lra.
    + intros p' Hp' Hend'.
      destruct (snoc_inv p' _ Hp') as (q & b & -> & Hq).
      rewrite walk_end_snoc in Hend'.
      destruct (table_reached col older pre q Hok Hq) as (m1 & Em1).
      assert (Hq1 : In (walk_end initialState q) allStates)
        by apply walk_end_state, initial_state.
      pose proof (Hsome _ m1 Hq1 Em1) as H1. cbv zeta in H1.
      destruct H1 as (_ & _ & _ & Hopt1).
      specialize (Hopt1 q Hq eq_refl).
      assert (Hc : In (walk_end initialState q, b) candidates)
        by (apply candidates_in; exact Hq1).
      specialize (Hopt _ b m1 Hc Em1 Hend').
      assert (Hpq : length pre = 4 * length q) by (rewrite Hpre; f_equal; symmetry; exact Hq).
      pose proof (cost_snoc q b pre y Hpq) as Hc'. lra.
Qed.

Lemma table_start : table_ok column0 [] [].
Proof.
  split; [reflexivity|]. split; [reflexivity|]. split.
  - intros st Hv Hn p Hp Hend.
    destruct p; [|discriminate]. cbn [walk_end] in Hend. subst st. discriminate.
  - intros st m Hv Hs. cbv zeta. simpl in Hv.
    repeat (destruct Hv as [Hv|Hv]; [subst st; try discriminate|]);
      [|contradiction].
    injection Hs as <-.
    split; [reflexivity|]. split; [reflexivity|]. split; [reflexivity|].
    intros p' Hp' _. destruct p'; [|discriminate]. apply Qle_refl.
Qed.

Lemma forward_ok n : forall samples col older pre,
  length samples = 4 * n ->
  table_ok col older pre ->
  exists col' older',
    forward (col :: older) samples = col' :: older' /\
    length older' = n + length older /\
    table_ok col' older' (pre ++ samples).
Proof.
  induction n as [|n IH]; intros samples col older pre Hlen Hok.
  - destruct samples; [|discriminate].
    exists col, older. rewrite app_nil_r. auto.
  - destruct samples as [|y0 [|y1 [|y2 [|y3 rest]]]];
      try (exfalso; simpl in Hlen; lia).
    assert (Hrest : length rest = 4 * n) by (simpl in Hlen; lia).
    pose proof (table_step col older pre [y0; y1; y2; y3] eq_refl Hok) as Hok'.
    destruct (IH rest _ _ _ Hrest Hok') as (col' & older' & E & Hl & Hok'').
    exists col', older'. split; [exact E|]. split; [simpl in Hl; lia|].
    rewrite <- app_assoc in Hok''. exact Hok''.
Qed.

(** ** The terminal state *)

Lemma metric_le_refl m : metric_le m m = true.
Proof. destruct m as [a|]; [|reflexivity]. apply metric_le_some, Qle_refl. Qed.

Lemma metric_le_trans m1 m2 m3 :
  metric_le m1 m2 = true -> metric_le m2 m3 = true -> metric_le m1 m3 = true.
Proof.
  destruct m1 as [a|], m2 as [b|], m3 as [c|]; try reflexivity; try discriminate.
  rewrite !metric_le_some. apply Qle_trans.
Qed.

Lemma metric_le_total m1 m2 :
  metric_le m1 m2 = false -> metric_le m2 m1 = true.
Proof.
  destruct m1 as [a|], m2 as [b|]; try reflexivity; try discriminate.
  intros H. apply metric_le_some.
  destruct (Qlt_le_dec a b) as [Hlt|Hle]; [|exact Hle].
  assert (Hab : metric_le (Some a) (Some b) = true) by (apply metric_le_some; lra).
  congruence.
Qed.

Lemma least_fold {A} (f : A -> metric) l : forall b,
  let r := fold_left (fun best x => if metric_le (f best) (f x) then best else x) l b in
  (r = b \/ In r l) /\ metric_le (f r) (f b) = true /\
  forall x, In x l -> metric_le (f r) (f x) = true.
Proof.
  induction l as [|a l IH]; intros b; cbv zeta.
  - cbn [fold_left]. split; [auto|]. split; [apply metric_le_refl|]. intros x [].
  - cbn [fold_left]. destruct (metric_le (f b) (f a)) eqn:E.
    + destruct (IH b) as (Hin & Hb & Hall). split.
      { destruct Hin as [Hin|Hin]; [left; exact Hin | right; right; exact Hin]. }
      split; [exact Hb|].
      intros x [<-|Hx]; [|apply Hall, Hx]. eapply metric_le_trans; eauto.
    + destruct (IH a) as (Hin & Ha & Hall). split.
      { destruct Hin as [->|Hin]; [right; left; reflexivity | right; right; exact Hin]. }
      split.
      { eapply metric_le_trans; [exact Ha|]. apply metric_le_total, E. }
      intros x [<-|Hx]; [exact Ha | apply Hall, Hx].
Qed.

Lemma best_state_least col :
  In (best_state col) allStates /\
  forall st, In st allStates ->
             metric_le (fst (get col (best_state col))) (fst (get col st)) = true.
Proof.
  unfold best_state.
  destruct (least_fold (fun st => fst (get col st)) allStates (hd initialState allStates))
    as (Hin & _ & Hall).
  split; [|exact Hall].
  destruct Hin as [->|Hin]; [simpl; tauto | exact Hin].
Qed.

(** ** The decoder is a minimum-distance decoder *)

Lemma precondition_holds n (word : list Q) :
  0 < n -> length word = 4 * n ->
  ((0 <? length word) && (length word mod 4 =? 0))%nat = true.
Proof.
  intros Hn Hlen. rewrite Hlen. apply andb_true_intro. split.
  - apply Nat.ltb_lt. lia.
  - apply Nat.eqb_eq. rewrite Nat.mul_comm. apply Nat.Div0.mod_mul.
Qed.

Lemma viterbi_least n word :
  0 < n -> length word = 4 * n ->
  exists m bits,
    viterbi word = Ok (Some m, bits_to_str bits) /\
    length bits = n /\
    (m == cost bits word)%Q /\
    forall cand, length cand = n -> (cost bits word <= cost cand word)%Q.
Proof.
  intros Hn Hlen. unfold viterbi.
  rewrite (precondition_holds n word Hn Hlen). cbv zeta.
  destruct (forward_ok n word column0 [] [] Hlen table_start)
    as (last & older & E & Hl & Hok).
  rewrite E. cbn [hd app] in *. rewrite Nat.add_0_r in Hl.
  destruct (best_state_least last) as (Hbest & Hleast).
  set (best := best_state last) in *.
  destruct (table_reached last older word (repeat false n) Hok)
    as (m1 & Em1); [rewrite repeat_length; lia|].
  pose proof (Hleast _ (walk_end_state (repeat false n) _ initial_state)) as Hle1.
  rewrite Em1 in Hle1.
  destruct (fst (get last best)) as [m|] eqn:Em; [|discriminate].
  pose proof Hok as (_ & _ & _ & Hsome).
  pose proof (Hsome best m Hbest Em) as H. cbv zeta in H.
  destruct H as (Hp & Hend & Hcost & _).
  exists m, (rev (traceback (last :: older) best)).
  split; [reflexivity|]. split; [lia|]. split; [exact Hcost|].
  intros cand Hcand.
  destruct (table_reached last older word cand Hok ltac:(lia)) as (mc & Emc).
  assert (Hvc : In (walk_end initialState cand) allStates)
    by apply walk_end_state, initial_state.
  pose proof (Hsome _ mc Hvc Emc) as Hc. cbv zeta in Hc.
  destruct Hc as (_ & _ & _ & Hoptc).
  specialize (Hoptc cand ltac:(lia) eq_refl).
  pose proof (Hleast _ Hvc) as Hle. rewrite Emc in Hle.
  apply metric_le_some in Hle. lra.
Qed.

End ViterbiFacts.

(* ================================================================== *)
(** * The noiseless channel *)
(* ================================================================== *)

Section NoiselessFacts.

Import Py Numeral Trellis Graph.

Lemma sqdist_same xs : (sqdist xs xs == 0)%Q.
Proof.
  induction xs as [|x xs IH]; cbn [sqdist]; [reflexivity|]. rewrite IH. ring.
Qed.

Lemma square_zero (a : Q) : (a * a == 0)%Q -> (a == 0)%Q.
Proof. intros H. destruct (Qmult_integral _ _ H); assumption. Qed.

(** Integer sequences at distance 0 are equal. *)
Lemma sqdist_zero (a : list Z) : forall b,
  length a = length b ->
  (sqdist (map inject_Z a) (map inject_Z b) == 0)%Q -> a = b.
Proof.
  induction a as [|x a IH]; intros [|y b] Hlen H; try discriminate; [reflexivity|].
  cbn [map sqdist] in H.
  pose proof (square_nonneg (inject_Z x - inject_Z y)) as Hsq.
  pose proof (sqdist_nonneg (map inject_Z a) (map inject_Z b)) as Hrest.
  assert (Hx : (inject_Z x - inject_Z y == 0)%Q) by (apply square_zero; lra).
  assert (Exy : x = y).
  { apply inject_Z_injective. lra. }
  subst y. f_equal. apply IH; [simpl in Hlen; lia | lra].
Qed.

(** The symbols a transition emits tell the input bit. *)
Lemma transition_inj st b1 b2 :
  In st allStates -> fst (transition st b1) = fst (transition st b2) -> b1 = b2.
Proof.
  intros H. simpl in H.
  repeat (destruct H as [H|H];
          [subst st; destruct b1, b2; simpl; intros E;
           first [reflexivity | discriminate E]|]).
  contradiction.
Qed.

Lemma length_transition st bit : length (fst (transition st bit)) = 4.
Proof. destruct st as [[a b] c]. reflexivity. Qed.

Lemma app_inj_length {A} (a : list A) : forall b c d,
  length a = length b -> a ++ c = b ++ d -> a = b /\ c = d.
Proof.
  induction a as [|x a IH]; intros [|y b] c d Hlen E; try discriminate.
  - auto.
  - injection E as -> E. destruct (IH b c d) as [-> ->]; auto.
Qed.

Lemma walk_inj d : forall st bits,
  In st allStates -> length d = length bits ->
  walk st d = walk st bits -> d = bits.
Proof.
  induction d as [|b1 d IH]; intros st [|b2 bits] Hst Hlen E; try discriminate;
    [reflexivity|].
  rewrite !walk_cons in E.
  apply app_inj_length in E; [|rewrite !length_transition; reflexivity].
  destruct E as [E1 E2].
  assert (b1 = b2) by (eapply transition_inj; eauto). subst b2.
  f_equal. eapply IH; [apply transition_state; exact Hst | simpl in Hlen; lia | exact E2].
Qed.

Lemma cost_self bits : (cost bits (codeword bits) == 0)%Q.
Proof. apply sqdist_same. Qed.

(** Without noise the decoder finds the bits that were encoded. *)
Lemma viterbi_noiseless bits :
  bits <> [] -> decode_bits (codeword bits) = Ok (bits_to_str bits).
Proof.
  intros Hne.
  destruct (viterbi_least (length bits) (codeword bits)) as (m & d & E & Hlen & _ & Hmin).
  - destruct bits; [contradiction | simpl; lia].
  - apply length_codeword.
  - unfold decode_bits. rewrite E. cbn [bind snd]. do 2 f_equal.
    specialize (Hmin bits eq_refl).
    pose proof (cost_self bits) as H0.
    pose proof (sqdist_nonneg (codeword d) (codeword bits)) as Hpos.
    unfold cost in *. rewrite !codeword_walk in *. unfold np_array in *.
    apply (walk_inj d initialState bits initial_state Hlen).
    apply sqdist_zero; [rewrite !length_walk; lia | lra].
Qed.

(** ** Text to bits to text *)

Lemma decode_ascii_id m :
  Forall (fun c => (c < 128)%N) m -> decode_ascii_replace m = m.
Proof.
  induction 1 as [|c m Hc _ IH]; [reflexivity|].
  cbn [decode_ascii_replace map]. destruct (N.ltb_spec c 128); [|lia].
  f_equal. exact IH.
Qed.

Lemma encode_ascii_id m :
  Forall (fun c => (c < 128)%N) m -> encode_ascii_replace m = m.
Proof.
  induction 1 as [|c m Hc _ IH]; [reflexivity|].
  cbn [encode_ascii_replace map]. destruct (N.ltb_spec c 128); [|lia].
  f_equal. exact IH.
Qed.

Lemma int2_byte_bits bs :
  Forall (fun b => (b < 256)%N) bs -> bs <> [] ->
  Py.int 2 (bits_to_str (flat_map byte_bits bs)) = Ok (value 256 bs).
Proof.
  intros Hb Hne. rewrite <- (value_bits bs Hb).
  rewrite int2_bits.
  - rewrite value_N_to_bits; [reflexivity | apply value_bound; exact Hb].
  - intros E. apply (f_equal (@length bool)) in E.
    rewrite length_N_to_bits in E. destruct bs; [contradiction | discriminate].
Qed.

Lemma bits_to_text_bytes m :
  m <> [] -> Forall (fun c => (c < 128)%N) m -> hd_error m <> Some 0%N ->
  bits_to_text (bits_to_str (flat_map byte_bits m)) = Ok m.
Proof.
  intros Hne Hascii Hhd.
  pose proof (bytes_of_ascii m Hascii) as Hb.
  rewrite (bits_to_text_value _ _ (int2_byte_bits m Hb Hne)).
  rewrite digits_value by (try lia; assumption).
  rewrite decode_ascii_id by exact Hascii. reflexivity.
Qed.

End NoiselessFacts.

(* ================================================================== *)
(** * The text the decoder returns, and the length contract *)
(* ================================================================== *)

Section TextFacts.

Import Py Numeral Trellis Graph.

Lemma int2_leading_zero c s : Py.int 2 ("0"%char :: c :: s) = Py.int 2 (c :: s).
Proof. reflexivity. Qed.

Lemma bits_to_text_leading_zero c s :
  bits_to_text ("0"%char :: c :: s) = bits_to_text (c :: s).
Proof. unfold bits_to_text. rewrite int2_leading_zero. reflexivity. Qed.

Lemma bits_to_text_leading_zeros k bit rest :
  bits_to_text (bits_to_str (repeat false k ++ bit :: rest))
  = bits_to_text (bits_to_str (bit :: rest)).
Proof.
  induction k as [|k IH]; [reflexivity|].
  rewrite <- IH. cbn [repeat app].
  destruct k; cbn [repeat app bits_to_str map bit_char];
    apply bits_to_text_leading_zero.
Qed.

(** No text the conversion returns starts with NUL. *)
Lemma bits_to_text_head s text :
  bits_to_text s = Ok text -> hd_error text <> Some 0%N.
Proof.
  intros H. destruct (Py.int 2 s) as [n|e] eqn:E.
  - rewrite (bits_to_text_value s n E) in H. injection H as <-.
    destruct (N.eq_dec n 0) as [->|Hn]; [discriminate|].
    destruct (digits_head 256 n ltac:(lia) Hn) as (d & rest & -> & Hd & _).
    cbn [decode_ascii_replace map hd_error].
    destruct (N.ltb_spec d 128); intros Hz; injection Hz as Hz; lia.
  - unfold bits_to_text in H. rewrite E in H. discriminate.
Qed.

Lemma decode_head word text : decode word <> Ok (0%N :: text).
Proof.
  unfold decode. destruct (decode_bits word) as [s|e]; cbn [bind]; [|discriminate].
  intros H. apply bits_to_text_head in H. apply H. reflexivity.
Qed.

Lemma bits_to_text_collision k :
  exists b1 b2 : list bool,
    length b1 = 8 + k /\ length b2 = 8 + k /\ b1 <> b2 /\
    bits_to_text (bits_to_str b1) = bits_to_text (bits_to_str b2).
Proof.
  exists (repeat false k ++ byte_bits 128), (repeat false k ++ byte_bits 129).
  split; [rewrite length_app, repeat_length; simpl; lia|].
  split; [rewrite length_app, repeat_length; simpl; lia|].
  split.
  - intros E. apply app_inv_head in E. discriminate E.
  - change (byte_bits 128) with (true :: repeat false 7).
    change (byte_bits 129) with (true :: repeat false 6 ++ [true]).
    rewrite !bits_to_text_leading_zeros. reflexivity.
Qed.

Lemma decode_bad_length word :
  ~ (exists n, 0 < n /\ length word = 4 * n) ->
  decode word = Raise LengthContractError.
Proof.
  intros H. unfold decode, decode_bits, viterbi.
  destruct ((0 <? length word) && (length word mod 4 =? 0))%nat eqn:E;
    [|reflexivity].
  exfalso. apply H. apply andb_prop in E. destruct E as [E1 E2].
  apply Nat.ltb_lt in E1. apply Nat.eqb_eq in E2.
  exists (length word / 4). split.
  - apply Nat.Div0.div_exact in E2. lia.
  - apply Nat.Div0.div_exact. exact E2.
Qed.

End TextFacts.

(* ================================================================== *)
(** * Exhaustive search finds the least distance *)
(* ================================================================== *)

Section SearchFacts.

Import Trellis Graph.

Lemma all_bits_complete n : forall bits, length bits = n -> In bits (all_bits n).
Proof.
  induction n as [|n IH]; intros [|b bits] H; try discriminate.
  - left. reflexivity.
  - cbn [all_bits]. apply in_or_app.
    destruct b; [right | left]; apply in_map, IH; simpl in H; lia.
Qed.

Lemma all_bits_length n : forall bits, In bits (all_bits n) -> length bits = n.
Proof.
  induction n as [|n IH]; intros bits H.
  - destruct H as [<-|[]]. reflexivity.
  - cbn [all_bits] in H. apply in_app_or in H.
    destruct H as [H|H]; apply in_map_iff in H; destruct H as (t & <- & Ht);
      simpl; f_equal; apply IH, Ht.
Qed.

Lemma length_all_bits n : length (all_bits n) = 2 ^ n.
Proof.
  induction n as [|n IH]; [reflexivity|].
  cbn [all_bits]. rewrite length_app, !length_map, IH. simpl. lia.
Qed.

Lemma brute_force_least n samples :
  length (brute_force n samples) = n /\
  forall cand, length cand = n ->
               (cost (brute_force n samples) samples <= cost cand samples)%Q.
Proof.
  destruct (least_fold (fun c => Some (cost c samples)) (all_bits n) (repeat false n))
    as (Hin & _ & Hall).
  change (fold_left _ (all_bits n) (repeat false n)) with (brute_force n samples) in *.
  split.
  - destruct Hin as [->|Hin]; [apply repeat_length | apply all_bits_length, Hin].
  - intros cand Hc. apply metric_le_some. apply Hall, all_bits_complete, Hc.
Qed.

End SearchFacts.

(* ================================================================== *)
(** * The properties of the transmission chain *)
(* ================================================================== *)

Section ChannelFacts.

Variable rng_normal : PrimFloat.float -> PrimFloat.float -> nat -> list PrimFloat.float.

Lemma length_np_add xs : forall ys,
  length ys = length xs -> length (np_add xs ys) = length xs.
Proof.
  induction xs as [|x xs IH]; intros [|y ys] H; try discriminate; [reflexivity|].
  cbn [np_add length]. f_equal. apply IH. simpl in H. lia.
Qed.

Lemma transmit_default signal :
  transmit rng_normal signal None
  = np_add signal (rng_normal MEAN (np_sqrt VARIANCE) (length signal)).
Proof. reflexivity. Qed.

Lemma transmit_given signal v :
  PrimFloat.eqb v PrimFloat.zero = false ->
  transmit rng_normal signal (Some v)
  = np_add signal (rng_normal MEAN (np_sqrt v) (length signal)).
Proof.
  intros Hv. unfold transmit, Py.or_else, Py.truthy. rewrite Hv. reflexivity.
Qed.

End ChannelFacts.

Section Claims.

Import Py Numeral Trellis Graph.

(** C1 (as amended).  At the bit level the noiseless chain is the
    identity: the decoder returns every bit sequence that is not empty
    from its codeword, and from the codeword of a message that is not
    empty the bit string [str_to_bits] made of it.  At the message
    level, for a message that is not empty and does not start with NUL,
    [decode] returns the message with each character outside ASCII
    replaced by ['?']: the message itself exactly when it is all
    ASCII. *)
Theorem noiseless_roundtrip (bits : list bool) (message : list N) :
  bits <> [] -> message <> [] ->
  decode_bits (codeword bits) = Ok (bits_to_str bits) /\
  exists code,
    encode message = Ok code /\
    str_to_bits message
    = Ok (bits_to_str (flat_map byte_bits (encode_ascii_replace message))) /\
    decode_bits code = str_to_bits message /\
    (hd_error message <> Some 0%N ->
     decode code = Ok (encode_ascii_replace message) /\
     (decode code = Ok message <-> Forall (fun c => (c < 128)%N) message)).
Proof.
  intros Hb Hne. split; [apply viterbi_noiseless, Hb|].
  set (octets := encode_ascii_replace message).
  assert (Hoct : octets <> []) by (destruct message; [contradiction | discriminate]).
  assert (Hbits : flat_map byte_bits octets <> []).
  { intros E. apply (f_equal (@length bool)) in E.
    rewrite length_byte_bits in E. destruct octets; [contradiction | discriminate]. }
  exists (codeword (flat_map byte_bits octets)).
  split; [rewrite encode_walk by exact Hne; rewrite codeword_walk; reflexivity|].
  split; [apply str_to_bits_bytes, Hne|].
  split.
  { rewrite str_to_bits_bytes by exact Hne. apply viterbi_noiseless, Hbits. }
  intros Hhd.
  assert (Hdec : decode (codeword (flat_map byte_bits octets)) = Ok octets).
  { unfold decode. rewrite viterbi_noiseless by exact Hbits. cbn [bind].
    apply bits_to_text_bytes; [exact Hoct | apply encode_ascii_bounded |].
    unfold octets. destruct message as [|c rest]; [contradiction|].
    cbn [encode_ascii_replace map hd_error] in *.
    destruct (N.ltb_spec c 128); [exact Hhd | discriminate]. }
  split; [exact Hdec|]. rewrite Hdec. split.
  - intros E. injection E as E. rewrite <- E. apply encode_ascii_bounded.
  - intros Hascii. unfold octets. rewrite encode_ascii_id by exact Hascii.
    reflexivity.
Qed.

Lemma noiseless_roundtrip_witness :
  decode_bits (codeword [true; false]) = Ok (bits_to_str [true; false]) /\
  exists code,
    encode [72; 233]%N = Ok code /\
    str_to_bits [72; 233]%N
    = Ok (bits_to_str (flat_map byte_bits (encode_ascii_replace [72; 233]%N))) /\
    decode_bits code = str_to_bits [72; 233]%N /\
    (hd_error [72; 233]%N <> Some 0%N ->
     decode code = Ok (encode_ascii_replace [72; 233]%N) /\
     (decode code = Ok [72; 233]%N
      <-> Forall (fun c => (c < 128)%N) [72; 233]%N)).
Proof.
  apply (noiseless_roundtrip [true; false] [72; 233]%N); discriminate.
Defined.

(** C1 as stated fails on a character outside ASCII: U+00E9 is sent as
    ['?'] and ['?'] is what comes back.  At the bit level it fails on
    the empty bit sequence, whose empty codeword the decoder refuses. *)
Lemma roundtrip_non_ascii_counterexample :
  (exists code,
     encode [233%N] = Ok code /\ decode code = Ok [63%N] /\
     decode code <> Ok [233%N]) /\
  decode_bits (codeword []) = Raise LengthContractError.
Proof.
  split; [|reflexivity].
  eexists. split; [vm_compute; reflexivity|].
  split; [vm_compute; reflexivity|].
  vm_compute. discriminate.
Qed.

(** C2.  On samples whose number is a positive multiple of 4 the decoder
    returns a bit sequence of a quarter that length whose codeword is at
    least squared distance from the samples among the codewords of all
    bit sequences of that length; the distance is the one exhaustive
    search over the [2 ^ n] candidates finds, and so is the sequence
    when no other sequence comes as close. *)
Theorem decode_minimum_distance (n : nat) (word : list Q) :
  0 < n -> length word = 4 * n ->
  exists bits,
    decode_bits word = Ok (bits_to_str bits) /\
    length bits = n /\
    (forall cand, length cand = n -> (cost bits word <= cost cand word)%Q) /\
    length (all_bits n) = 2 ^ n /\
    (cost bits word == cost (brute_force n word) word)%Q /\
    ((forall cand, length cand = n ->
                   (cost cand word <= cost bits word)%Q -> cand = bits) ->
     brute_force n word = bits).
Proof.
  intros Hn Hlen.
  destruct (viterbi_least n word Hn Hlen) as (m & bits & E & Hb & _ & Hmin).
  exists bits. split; [unfold decode_bits; rewrite E; reflexivity|].
  split; [exact Hb|]. split; [exact Hmin|]. split; [apply length_all_bits|].
  destruct (brute_force_least n word) as (Hbf & Hbfmin).
  split.
  - specialize (Hmin _ Hbf). specialize (Hbfmin _ Hb). lra.
  - intros Huniq. apply Huniq; [exact Hbf | apply Hbfmin, Hb].
Qed.

Lemma decode_minimum_distance_witness :
  exists bits,
    decode_bits [1 # 2; -1; 3 # 4; 1]%Q = Ok (bits_to_str bits) /\
    length bits = 1 /\
    (forall cand, length cand = 1 ->
       (cost bits [1 # 2; -1; 3 # 4; 1] <= cost cand [1 # 2; -1; 3 # 4; 1])%Q) /\
    length (all_bits 1) = 2 ^ 1 /\
    (cost bits [1 # 2; -1; 3 # 4; 1]
     == cost (brute_force 1 [1 # 2; -1; 3 # 4; 1]) [1 # 2; -1; 3 # 4; 1])%Q /\
    ((forall cand, length cand = 1 ->
        (cost cand [1 # 2; -1; 3 # 4; 1] <= cost bits [1 # 2; -1; 3 # 4; 1])%Q ->
        cand = bits) ->
     brute_force 1 [1 # 2; -1; 3 # 4; 1]%Q = bits).
Proof.
  apply (decode_minimum_distance 1 [1 # 2; -1; 3 # 4; 1]%Q).
  - lia.
  - reflexivity.
Defined.

(** C3 at the empty message: [str_to_bits] hands the empty string to
    [int], which raises, so [encode] returns no codeword, although its
    loop on no bits would return the empty one.  A message that is not
    empty gets 4 samples a bit, 32 a character. *)
Theorem encode_empty_message :
  encode [] = Raise ValueError /\
  encode_loop [] = Ok ([1; 1; 1]%Z, []) /\
  (forall c message,
     exists code, encode (c :: message) = Ok code /\
                  length code = 4 * (8 * length (c :: message))).
Proof.
  split; [reflexivity|]. split; [reflexivity|].
  intros c message.
  assert (Hne : c :: message <> []) by discriminate.
  exists (np_array (walk initialState
                      (flat_map byte_bits (encode_ascii_replace (c :: message))))).
  split; [apply encode_walk, Hne|].
  rewrite (encode_length (c :: message) _ Hne (encode_walk _ Hne)). lia.
Qed.

(** C4.  The loop of [encode] starts with the window [1, 1, 1]; one pass
    with window [a, b, c] and symbol [s = 2 * bit - 1] appends
    [a*b*s, b*c*s, a*c*s, a*s] and leaves the window [b, c, s]; over a
    whole bit string the loop emits what the walk through the trellis
    from the initial state emits and ends in the state that walk ends
    in. *)
Theorem encode_follows_transition :
  encode_loop [] = Ok ([1; 1; 1]%Z, []) /\
  (forall a b c code bit,
     encode_step ([a; b; c], code) bit
     = Ok ([b; c; (2 * bit - 1)%Z],
           code ++ [ (a * b * (2 * bit - 1))%Z; (b * c * (2 * bit - 1))%Z;
                     (a * c * (2 * bit - 1))%Z; (a * (2 * bit - 1))%Z ])) /\
  (forall bits,
     encode_loop (bits_to_str bits)
     = Ok (window_of (walk_end initialState bits), walk initialState bits)).
Proof.
  split; [reflexivity|]. split.
  - intros. apply encode_step_window.
  - apply encode_loop_walk.
Qed.

(** C5.  After any bit sequence the window of [encode] is one of the 8
    states, and from there the pass for either bit raises nothing, emits
    four symbols and leaves a window that is again a state: three
    entries, each +1 or -1. *)
Theorem encoder_window_invariant (seen : list bool) (bit : bool) :
  exists window code outs window',
    encode_loop (bits_to_str seen) = Ok (window, code) /\
    In window (map window_of allStates) /\
    encode_iter (window, code) (bit_char bit) = Ok (window', code ++ outs) /\
    length outs = 4 /\ Forall is_symbol outs /\
    length window' = 3 /\ Forall is_symbol window' /\
    In window' (map window_of allStates).
Proof.
  pose proof (walk_end_state seen initialState initial_state) as Hst.
  pose proof (transition_state _ bit Hst) as Hst'.
  exists (window_of (walk_end initialState seen)), (walk initialState seen),
         (fst (transition (walk_end initialState seen) bit)),
         (window_of (snd (transition (walk_end initialState seen) bit))).
  split; [apply encode_loop_walk|].
  split; [apply in_map, Hst|].
  split; [apply encode_iter_transition|].
  split; [apply length_transition|].
  split; [apply transition_symbols, Hst|].
  split.
  { destruct (snd (transition (walk_end initialState seen) bit)) as [[a b] c].
    reflexivity. }
  split; [apply state_symbols, Hst' | apply in_map, Hst'].
Qed.

(** C6.  On samples whose number is not a positive multiple of 4 [decode]
    raises the length-contract error and returns nothing. *)
Theorem decode_length_contract (word : list Q) :
  ~ (exists n, 0 < n /\ length word = 4 * n) ->
  decode word = Raise LengthContractError.
Proof. apply decode_bad_length. Qed.

Lemma decode_length_contract_witness :
  decode [1; -1; 1]%Q = Raise LengthContractError.
Proof.
  apply (decode_length_contract [1; -1; 1]%Q).
  intros (n & Hn & H). simpl in H. lia.
Defined.

(** C7 at variance 0: [var or VARIANCE] takes 0.0 for a missing
    argument, so the noise is drawn with the default variance 1 and the
    call is the same as the one without the argument. *)
Theorem transmit_zero_variance
    (rng_normal : PrimFloat.float -> PrimFloat.float -> nat -> list PrimFloat.float)
    (signal : list PrimFloat.float) :
  transmit rng_normal signal (Some PrimFloat.zero)
  = np_add signal (rng_normal MEAN (np_sqrt PrimFloat.one) (length signal)) /\
  transmit rng_normal signal (Some PrimFloat.zero)
  = transmit rng_normal signal None.
Proof. split; reflexivity. Qed.

(** C9.  For a string that is not empty [str_to_bits] returns the
    8-bit big-endian expansions of its ASCII octets, ['?'] standing for
    a character outside ASCII, one after the other: 8 bits a
    character. *)
Theorem str_to_bits_expansion (s : list N) :
  s <> [] ->
  str_to_bits s = Ok (bits_to_str (flat_map byte_bits (encode_ascii_replace s))) /\
  length (bits_to_str (flat_map byte_bits (encode_ascii_replace s))) = 8 * length s.
Proof.
  intros Hne. split; [apply str_to_bits_bytes, Hne|].
  unfold bits_to_str. rewrite length_map, length_byte_bits.
  unfold encode_ascii_replace. rewrite length_map. reflexivity.
Qed.

Lemma str_to_bits_expansion_witness :
  str_to_bits [233; 10]%N
  = Ok (bits_to_str (flat_map byte_bits (encode_ascii_replace [233; 10]%N))) /\
  length (bits_to_str (flat_map byte_bits (encode_ascii_replace [233; 10]%N)))
  = 8 * length [233; 10]%N.
Proof. apply (str_to_bits_expansion [233; 10]%N). discriminate. Defined.

(** C10.  Eight leading 0 bits add nothing to the text [decode] makes of
    a bit string: the text is that of the remaining bits, and empty when
    none remain.  No text [decode] returns starts with NUL, and at every
    length from 8 bits on two bit strings have the same text. *)
Theorem decode_drops_leading_nul :
  (forall bit rest,
     bits_to_text (bits_to_str (repeat false 8 ++ bit :: rest))
     = bits_to_text (bits_to_str (bit :: rest))) /\
  bits_to_text (bits_to_str (repeat false 8)) = Ok [] /\
  (forall word text, decode word <> Ok (0%N :: text)) /\
  (forall k, exists b1 b2 : list bool,
     length b1 = 8 + k /\ length b2 = 8 + k /\ b1 <> b2 /\
     bits_to_text (bits_to_str b1) = bits_to_text (bits_to_str b2)).
Proof.
  split; [intros; apply bits_to_text_leading_zeros|].
  split; [reflexivity|].
  split; [apply decode_head | apply bits_to_text_collision].
Qed.

End Claims.

(** ** The chain on concrete messages *)

Example str_to_bits_A : str_to_bits [65%N] = Ok (Py.lit "01000001").
Proof. reflexivity. Qed.

Example encode_A :
  encode [65%N]
  = Ok (np_array [ -1; -1; -1; -1;   1; -1; -1;  1;   1;  1; -1; -1;
                    1;  1; -1;  1;   1; -1;  1; -1;  -1; -1; -1;  1;
                   -1; -1; -1;  1;   1;  1;  1; -1 ]%Z).
Proof. reflexivity. Qed.

Example roundtrip_nul_A :
  (code <- encode [0; 65]%N ;; decode code) = Ok [65%N].
Proof. vm_compute. reflexivity. Qed.

Example roundtrip_nul :
  (code <- encode [0%N] ;; decode code) = Ok [].
Proof. vm_compute. reflexivity. Qed.

(* ================================================================== *)
(** * Further properties of the chain *)
(* ================================================================== *)

Section TextNormalForm.

Import Py Numeral Trellis Graph.

Lemma value_strip_nul m : value 256 (strip_nul m) = value 256 m.
Proof.
  induction m as [|c m IH]; [reflexivity|].
  destruct c as [|p]; [|reflexivity].
  cbn [strip_nul]. rewrite IH. reflexivity.
Qed.

Lemma strip_nul_head m : hd_error (strip_nul m) <> Some 0%N.
Proof.
  induction m as [|c m IH]; [discriminate|].
  destruct c as [|p]; [exact IH | discriminate].
Qed.

Lemma strip_nul_Forall (P : N -> Prop) m : Forall P m -> Forall P (strip_nul m).
Proof.
  induction 1 as [|c m Hc Hm IH]; [constructor|].
  destruct c as [|p]; [exact IH | constructor; assumption].
Qed.

Lemma length_strip_nul m : length (strip_nul m) <= length m.
Proof.
  induction m as [|c m IH]; [reflexivity|].
  destruct c as [|p]; simpl; lia.
Qed.

Lemma digits_value_strip m :
  Forall (fun b => (b < 256)%N) m -> digits 256 (value 256 m) = strip_nul m.
Proof.
  intros H. rewrite <- value_strip_nul. apply digits_value.
  - lia.
  - apply strip_nul_Forall, H.
  - apply strip_nul_head.
Qed.

Lemma bits_to_text_octets m :
  m <> [] -> Forall (fun c => (c < 128)%N) m ->
  bits_to_text (bits_to_str (flat_map byte_bits m)) = Ok (strip_nul m).
Proof.
  intros Hne Hascii.
  pose proof (bytes_of_ascii m Hascii) as Hb.
  rewrite (bits_to_text_value _ _ (int2_byte_bits m Hb Hne)).
  rewrite digits_value_strip by exact Hb.
  rewrite decode_ascii_id by (apply strip_nul_Forall, Hascii). reflexivity.
Qed.

End TextNormalForm.

Section NoiseFacts.

Import Py Numeral Trellis Graph.

(** Of the two symbols, the one within distance 1 of a sample is the
    closer. *)
Lemma closest_symbol (x y : Z) (r : Q) :
  is_symbol x -> is_symbol y -> near (inject_Z x) r ->
  ((inject_Z x - r) * (inject_Z x - r) <= (inject_Z y - r) * (inject_Z y - r))%Q /\
  ((inject_Z y - r) * (inject_Z y - r) <= (inject_Z x - r) * (inject_Z x - r)
   -> x = y)%Q.
Proof.
  intros [-> | ->] [-> | ->] [H1 H2];
    change (inject_Z 1) with 1%Q in *; change (inject_Z (-1)) with (-1)%Q in *;
    split; try lra; intros H; try reflexivity; exfalso; lra.
Qed.

Lemma sqdist_nearest (a : list Z) : forall (b : list Z) (r : list Q),
  length a = length b -> Forall is_symbol a -> Forall is_symbol b ->
  Forall2 near (map inject_Z a) r ->
  (sqdist (map inject_Z a) r <= sqdist (map inject_Z b) r)%Q /\
  ((sqdist (map inject_Z b) r <= sqdist (map inject_Z a) r)%Q -> a = b).
Proof.
  induction a as [|x a IH]; intros [|y b] r Hlen Ha Hb Hnear; try discriminate.
  - split; [apply Qle_refl | reflexivity].
  - cbn [map] in Hnear. inversion Hnear as [|? r0 ? rs Hx Hrest]; subst.
    inversion Ha as [|? ? Hsx Ha']; subst. inversion Hb as [|? ? Hsy Hb']; subst.
    destruct (closest_symbol x y r0 Hsx Hsy Hx) as [Hle Heq].
    destruct (IH b rs ltac:(simpl in Hlen; lia) Ha' Hb' Hrest) as [Hle' Heq'].
    cbn [map sqdist]. split; [lra|].
    intros H. f_equal; [apply Heq | apply Heq']; lra.
Qed.

Lemma walk_symbols bits : forall st,
  In st allStates -> Forall is_symbol (walk st bits).
Proof.
  induction bits as [|bit bits IH]; intros st Hst; [constructor|].
  rewrite walk_cons. apply Forall_app. split.
  - apply transition_symbols, Hst.
  - apply IH, transition_state, Hst.
Qed.

Lemma decode_bits_near bits word :
  bits <> [] -> Forall2 near (codeword bits) word ->
  decode_bits word = Ok (bits_to_str bits).
Proof.
  intros Hne Hnear.
  pose proof (Forall2_length Hnear) as Hlen. rewrite length_codeword in Hlen.
  destruct (viterbi_least (length bits) word) as (m & d & E & Hd & _ & Hmin).
  - destruct bits; [contradiction | simpl; lia].
  - symmetry. exact Hlen.
  - unfold decode_bits. rewrite E. cbn [bind snd]. do 2 f_equal.
    specialize (Hmin bits eq_refl).
    unfold cost in Hmin. rewrite !codeword_walk in *. unfold np_array in *.
    destruct (sqdist_nearest (walk initialState bits) (walk initialState d) word)
      as [_ Heq].
    + rewrite !length_walk. lia.
    + apply walk_symbols, initial_state.
    + apply walk_symbols, initial_state.
    + exact Hnear.
    + symmetry. apply (walk_inj bits initialState d initial_state); [lia|].
      apply Heq, Hmin.
Qed.

End NoiseFacts.

Section TotalityFacts.

Import Py Numeral Trellis Graph.

Lemma value_lt b ds :
  (1 <= b)%N -> Forall (fun d => (d < b)%N) ds ->
  (value b ds < b ^ N.of_nat (length ds))%N.
Proof.
  intros Hb. induction ds as [|d ds IH] using rev_ind; intros Hall.
  - unfold value. simpl. lia.
  - apply Forall_app in Hall. destruct Hall as [Hds Hd].
    inversion Hd as [|? ? Hlt _]; subst.
    rewrite value_snoc, length_app. simpl length.
    replace (length ds + 1) with (S (length ds)) by lia.
    rewrite Nat2N.inj_succ, N.pow_succ_r'.
    specialize (IH Hds). revert IH.
    generalize (b ^ N.of_nat (length ds))%N (value b ds). intros p v IH. nia.
Qed.

Lemma digits_length_bound b n :
  (2 <= b)%N -> forall k, (n < b ^ N.of_nat k)%N -> length (digits b n) <= k.
Proof.
  intros Hb.
  apply (digits_ind b (fun n ds => forall k, (n < b ^ N.of_nat k)%N -> length ds <= k) Hb).
  - intros k _. simpl. lia.
  - intros m Hm IH k Hk. destruct k as [|k].
    + change (b ^ N.of_nat 0)%N with 1%N in Hk. lia.
    + rewrite length_app. simpl length.
      rewrite Nat2N.inj_succ, N.pow_succ_r' in Hk.
      assert (length (digits b (m / b)) <= k); [|lia].
      apply IH. apply N.Div0.div_lt_upper_bound. exact Hk.
Qed.

Lemma pow2_octets n : (2 ^ N.of_nat n <= 256 ^ N.of_nat ((n + 7) / 8))%N.
Proof.
  change 256%N with (2 ^ 8)%N. rewrite <- N.pow_mul_r.
  apply N.pow_le_mono_r; [lia|].
  pose proof (Nat.div_mod_eq (n + 7) 8) as H.
  pose proof (Nat.mod_upper_bound (n + 7) 8 ltac:(lia)). lia.
Qed.

(** The conversion to text succeeds on every bit string that is not
    empty, with at most one character for every eight bits begun. *)
Lemma bits_to_text_total bits :
  bits <> [] ->
  exists text, bits_to_text (bits_to_str bits) = Ok text /\
               length text <= (length bits + 7) / 8.
Proof.
  intros Hne. eexists. split.
  - apply bits_to_text_value, int2_bits, Hne.
  - unfold decode_ascii_replace. rewrite length_map.
    apply digits_length_bound; [lia|].
    pose proof (value_lt 2 (map N.b2n bits) ltac:(lia)) as Hv.
    rewrite length_map in Hv.
    pose proof (pow2_octets (length bits)).
    assert (Forall (fun d => (d < 2)%N) (map N.b2n bits)).
    { apply Forall_map, Forall_forall. intros [] _; simpl; lia. }
    specialize (Hv H0). lia.
Qed.

Lemma decode_returns (n : nat) (word : list Q) :
  0 < n -> length word = 4 * n ->
  exists text,
    decode word = Ok text /\ length text <= (n + 7) / 8 /\
    hd_error text <> Some 0%N.
Proof.
  intros Hn Hlen.
  destruct (viterbi_least n word Hn Hlen) as (m & bits & E & Hb & _).
  assert (Hne : bits <> []) by (intros ->; simpl in Hb; lia).
  destruct (bits_to_text_total bits Hne) as (text & Et & Hl).
  exists text. split; [|split].
  - unfold decode, decode_bits. rewrite E. cbn [bind snd]. exact Et.
  - rewrite Hb in Hl. exact Hl.
  - apply (bits_to_text_head _ _ Et).
Qed.

End TotalityFacts.

Section CodeFacts.

Import Py Numeral Trellis Graph.

Lemma byte_bits_inj b1 b2 :
  (b1 < 256)%N -> (b2 < 256)%N -> byte_bits b1 = byte_bits b2 -> b1 = b2.
Proof.
  intros H1 H2 E. rewrite !byte_bits_N_to_bits in E.
  rewrite <- (value_N_to_bits 8 b1), <- (value_N_to_bits 8 b2) by exact H1 || exact H2.
  rewrite E. reflexivity.
Qed.

Lemma length_one_byte_bits b : length (byte_bits b) = 8.
Proof. reflexivity. Qed.

Lemma octets_bits_inj m1 : forall m2,
  Forall (fun b => (b < 256)%N) m1 -> Forall (fun b => (b < 256)%N) m2 ->
  flat_map byte_bits m1 = flat_map byte_bits m2 -> m1 = m2.
Proof.
  induction m1 as [|b1 m1 IH]; intros [|b2 m2] H1 H2 E; try discriminate;
    [reflexivity|].
  cbn [flat_map] in E.
  apply app_inj_length in E; [|reflexivity]. destruct E as [Eb Em].
  inversion H1; subst. inversion H2; subst.
  f_equal; [apply byte_bits_inj; assumption | apply IH; assumption].
Qed.

Lemma Ok_inj {A : Type} (a b : A) : Ok a = Ok b -> a = b.
Proof. intros H. injection H as H. exact H. Qed.

Lemma np_array_inj a : forall b, np_array a = np_array b -> a = b.
Proof.
  unfold np_array. induction a as [|x a IH]; intros [|y b] E; try discriminate;
    [reflexivity|].
  cbn [map] in E. injection E as Ex Ea. f_equal; [exact Ex | apply IH, Ea].
Qed.

Lemma walk_inj_any d bits :
  walk initialState d = walk initialState bits -> d = bits.
Proof.
  intros E. apply (walk_inj d initialState bits initial_state); [|exact E].
  apply (f_equal (@length Z)) in E. rewrite !length_walk in E. lia.
Qed.

(** The product of the first three symbols of a transition is the
    symbol of its bit. *)
Lemma transition_product st bit :
  In st allStates ->
  (nth 0 (fst (transition st bit)) 0 * nth 1 (fst (transition st bit)) 0
   * nth 2 (fst (transition st bit)) 0)%Z = bitToSymbol bit.
Proof.
  intros H. simpl in H.
  repeat (destruct H as [H|H]; [subst st; destruct bit; reflexivity|]).
  contradiction.
Qed.

Lemma nth_block (outs w : list Z) i j :
  length outs = 4 -> j < 4 ->
  nth (4 * S i + j) (outs ++ w) 0%Z = nth (4 * i + j) w 0%Z.
Proof.
  intros Hl Hj. rewrite app_nth2 by lia. f_equal. lia.
Qed.

Lemma walk_block bits : forall st i,
  In st allStates -> i < length bits ->
  (nth (4 * i) (walk st bits) 0 * nth (4 * i + 1) (walk st bits) 0
   * nth (4 * i + 2) (walk st bits) 0)%Z = bitToSymbol (nth i bits false).
Proof.
  induction bits as [|bit bits IH]; intros st i Hst Hi; [simpl in Hi; lia|].
  rewrite walk_cons. pose proof (length_transition st bit) as Hl.
  destruct i as [|i].
  - cbn [Nat.mul Nat.add nth]. rewrite !app_nth1 by lia.
    apply transition_product, Hst.
  - rewrite (nth_block _ _ i 1), (nth_block _ _ i 2) by lia.
    pose proof (nth_block (fst (transition st bit))
                  (walk (snd (transition st bit)) bits) i 0 Hl ltac:(lia)) as H0.
    rewrite !Nat.add_0_r in H0. rewrite H0.
    cbn [nth]. apply IH; [apply transition_state, Hst | simpl in Hi; lia].
Qed.

End CodeFacts.

Section Extras.

Import Py Numeral Trellis Graph.

(** X1.  Two messages have the same outcome of [encode] exactly when
    they are the same after the replacement of the characters outside
    ASCII by ['?']: on ASCII messages the encoder is injective, and it
    tells the empty message (an exception) from all others. *)
Theorem encode_collisions (m1 m2 : list N) :
  encode m1 = encode m2 <-> encode_ascii_replace m1 = encode_ascii_replace m2.
Proof.
  destruct m1 as [|c1 m1], m2 as [|c2 m2].
  - split; reflexivity.
  - split; intros E; [|discriminate E].
    rewrite (encode_walk (c2 :: m2)) in E by discriminate. discriminate E.
  - split; intros E; [|discriminate E].
    rewrite (encode_walk (c1 :: m1)) in E by discriminate. discriminate E.
  - rewrite !encode_walk by discriminate. split; intros E.
    + apply Ok_inj, np_array_inj, walk_inj_any in E.
      apply octets_bits_inj in E;
        [exact E | apply bytes_of_ascii, encode_ascii_bounded ..].
    + rewrite E. reflexivity.
Qed.

(** X2.  Every block of four samples tells its bit on its own: the
    product of the first three samples of block [i] of the code is the
    symbol [2 * bit - 1] of bit [i]. *)
Theorem encode_block_reveals_bit (bits : list bool) (i : nat) :
  i < length bits ->
  exists window code,
    encode_loop (bits_to_str bits) = Ok (window, code) /\
    (nth (4 * i) code 0 * nth (4 * i + 1) code 0 * nth (4 * i + 2) code 0)%Z
    = (2 * Z.b2z (nth i bits false) - 1)%Z.
Proof.
  intros Hi. exists (window_of (walk_end initialState bits)), (walk initialState bits).
  split; [apply encode_loop_walk|].
  apply (walk_block bits initialState i initial_state Hi).
Qed.

Lemma encode_block_reveals_bit_witness :
  exists window code,
    encode_loop (bits_to_str [false; true; true]) = Ok (window, code) /\
    (nth (4 * 1) code 0 * nth (4 * 1 + 1) code 0 * nth (4 * 1 + 2) code 0)%Z
    = (2 * Z.b2z (nth 1 [false; true; true] false) - 1)%Z.
Proof. apply (encode_block_reveals_bit [false; true; true] 1). simpl. lia. Defined.

(** X3.  The text [decode] makes of a bit string that is not empty is
    the big-endian octet sequence without leading zero octet of the
    number the bits denote, an octet from 128 on shown as U+FFFD. *)
Theorem bits_to_text_octet_form (bit : bool) (rest : list bool) :
  exists octets,
    bits_to_text (bits_to_str (bit :: rest)) = Ok (decode_ascii_replace octets) /\
    value 256 octets = value 2 (map N.b2n (bit :: rest)) /\
    Forall (fun b => (b < 256)%N) octets /\
    hd_error octets <> Some 0%N.
Proof.
  exists (digits 256 (value 2 (map N.b2n (bit :: rest)))).
  split; [apply bits_to_text_value, int2_bits; discriminate|].
  split; [apply value_digits; lia|].
  split; [apply digits_bounded; lia|].
  intros H. destruct (N.eq_dec (value 2 (map N.b2n (bit :: rest))) 0) as [E|E].
  - rewrite E in H. discriminate H.
  - destruct (digits_head 256 _ ltac:(lia) E) as (d & t & Ed & Hd & _).
    rewrite Ed in H. injection H as H. contradiction.
Qed.

(** X4.  On samples whose number is a positive multiple of 4, [decode]
    raises nothing: it returns a text of at most one character for
    every eight bits decoded, not starting with NUL. *)
Theorem decode_total (n : nat) (word : list Q) :
  0 < n -> length word = 4 * n ->
  exists text,
    decode word = Ok text /\ length text <= (n + 7) / 8 /\
    hd_error text <> Some 0%N.
Proof. apply decode_returns. Qed.

Lemma decode_total_witness :
  exists text,
    decode [1 # 2; -1; 3 # 4; 1]%Q = Ok text /\ length text <= (1 + 7) / 8 /\
    hd_error text <> Some 0%N.
Proof.
  apply (decode_total 1 [1 # 2; -1; 3 # 4; 1]%Q); [lia | reflexivity].
Defined.

(** X5.  Without noise the chain returns, for every message that is not
    empty, the message with its characters outside ASCII replaced by
    ['?'] and its leading NUL characters dropped. *)
Theorem noiseless_normal_form (c : N) (message : list N) :
  exists code,
    encode (c :: message) = Ok code /\
    decode code = Ok (strip_nul (encode_ascii_replace (c :: message))).
Proof.
  set (m := c :: message).
  assert (Hne : m <> []) by discriminate.
  exists (codeword (flat_map byte_bits (encode_ascii_replace m))).
  assert (Hbits : flat_map byte_bits (encode_ascii_replace m) <> []) by discriminate.
  split.
  - rewrite encode_walk by exact Hne. rewrite codeword_walk. reflexivity.
  - unfold decode. rewrite viterbi_noiseless by exact Hbits. cbn [bind].
    apply bits_to_text_octets; [discriminate | apply encode_ascii_bounded].
Qed.

(** X6.  The decoder recovers the bits from any samples each within
    distance 1 of the sample of their codeword. *)
Theorem decode_bits_within_noise (bits : list bool) (word : list Q) :
  bits <> [] -> Forall2 near (codeword bits) word ->
  decode_bits word = Ok (bits_to_str bits).
Proof. intros Hne Hnear. apply decode_bits_near; assumption. Qed.

Lemma decode_bits_within_noise_witness :
  decode_bits [1 # 2; 3 # 2; 1; 1 # 3]%Q = Ok (bits_to_str [true]).
Proof.
  apply (decode_bits_within_noise [true] [1 # 2; 3 # 2; 1; 1 # 3]%Q).
  - discriminate.
  - change (codeword [true]) with [1; 1; 1; 1]%Q.
    repeat constructor; unfold near; lra.
Defined.

End Extras.
